(** * ld-relay: the RelayCore credential index and the event-relay dispatcher

    A shallow embedding of two Go files of the relay proxy:

    - package [relay] (RelayCore): the three credential maps, NewRelayCore,
      AddEnvironment, RemoveEnvironment, GetEnvironment, WaitForAllClients
      and Close;
    - package [events] (event-relay.go): the HTTP handler dispatchEvents, its
      goroutine, the two relays of an endpoint and
      eventVerbatimRelay.enqueue.

    Go maps are finite maps that may be nil; pointers to EnvContext objects
    are values carrying an allocation number; calls into collaborators that
    live outside these files (Close of an environment, PublishRaw, ...) are
    recorded in logs that are part of the state.  What the code leaves open
    is an argument of the model: the order in which a range statement comes
    to the entries of a map, the contexts that arrive on a channel and the
    branch a select takes, the order in which handlers and goroutines
    run. *)

From Stdlib Require Import ZArith String Ascii List Lia.
From stdpp Require Import base option gmap strings list.

Local Open Scope Z_scope.

(* ===================================================================== *)
(** * Package relay: RelayCore                                            *)
(* ===================================================================== *)

Module relay.

(** config.SDKCredential is an interface; SDKKey, MobileKey and EnvironmentID
    are its three string implementations.  The type switch of GetEnvironment
    has a default branch, taken by any other implementation. *)
Inductive SDKCredential :=
| SDKKey (k : string)
| MobileKey (k : string)
| EnvironmentID (k : string)
| OtherCredential (k : string).

(** The fields of config.EnvConfig that AddEnvironment reads. *)
Record EnvConfig := {
  cfg_SDKKey : string;
  cfg_MobileKey : string;
  cfg_EnvID : string;
  cfg_AllowedOrigin : list string;
  cfg_InsecureSkipVerify : bool
}.

(** What EnvContext.GetCredentials returns. *)
Record Credentials := {
  cred_SDKKey : string;
  cred_MobileKey : string;
  cred_EnvironmentID : string
}.

(** httputil.ReverseProxy as AddEnvironment configures it: only the TLS
    choice of its transport varies. *)
Record ReverseProxy := { proxy_InsecureSkipVerify : bool }.

Record JSClientContext := {
  js_Origins : list string;
  js_Proxy : option ReverseProxy
}.

(** Modelled from the spec: relayenv.EnvContext, an interface implemented in
    another package.  By the spec an EnvContext is the runtime instance for
    one EnvConfig.  The object is represented by what RelayCore can observe
    of it: its identity ([env_id], the allocation number standing for the
    pointer), the values it was constructed from, and the error its Close
    returns. *)
Record EnvContext := {
  env_id : nat;
  env_name : string;
  env_credentials : Credentials;
  env_jsClientContext : JSClientContext;
  env_closeError : option string
}.

Inductive StreamProvider :=
| serverSideStreamProvider
| serverSideFlagsStreamProvider
| mobileStreamProvider
| jsClientStreamProvider.

(** Resources whose Close method RelayCore calls. *)
Inductive Closeable :=
| CloseMetricsManager
| CloseEnv (id : nat)
| CloseStreamProvider (sp : StreamProvider).

#[global] Instance StreamProvider_eq_dec : EqDecision StreamProvider.
Proof. solve_decision. Defined.

#[global] Instance Closeable_eq_dec : EqDecision Closeable.
Proof. solve_decision. Defined.

Inductive Error :=
| errAlreadyClosed
| errDefaultBaseURLInvalid
| errInitializationTimeout
| errNoEnvironments
| errSomeEnvironmentFailed
| errNewClientContextFailed (envName : string) (err : string)
| errConfigureDataStore (err : string).

(** ** Go maps

    A Go map value is nil or a finite map.  Indexing and delete accept nil;
    assignment to an entry of a nil map panics. *)
Definition GoMap (V : Type) : Type := option (gmap string V).

Definition map_index {V} (m : GoMap V) (k : string) : option V :=
  match m with
  | Some g => g !! k
  | None => None
  end.

Definition map_delete {V} (m : GoMap V) (k : string) : GoMap V :=
  match m with
  | Some g => Some (delete k g)
  | None => None
  end.

(** [None] is the panic. *)
Definition map_assign {V} (m : GoMap V) (k : string) (v : V) : option (gmap string V) :=
  match m with
  | Some g => Some (<[k := v]> g)
  | None => None
  end.

(** ** State *)

Record RelayCore := {
  allEnvironments : GoMap EnvContext;
  envsByMobileKey : GoMap EnvContext;
  envsByEnvID : GoMap EnvContext;
  closed : bool;
  (* every EnvContext constructed so far, in allocation order *)
  constructed : list EnvContext;
  (* the Close calls made on collaborators, oldest first *)
  closeCalls : list Closeable;
  (* loggers.Warnf *)
  warnings : list string
}.

(** The struct literal of NewRelayCore, before the configured environments
    are added one by one with AddEnvironment. *)
Definition newRelayCore : RelayCore := {|
  allEnvironments := Some ∅;
  envsByMobileKey := Some ∅;
  envsByEnvID := Some ∅;
  closed := false;
  constructed := [];
  closeCalls := [];
  warnings := []
|}.

Definition allStreamProviders : list StreamProvider :=
  [serverSideStreamProvider; serverSideFlagsStreamProvider;
   mobileStreamProvider; jsClientStreamProvider].

(** ** GetEnvironment *)
Definition GetEnvironment (r : RelayCore) (credential : SDKCredential) : option EnvContext :=
  match credential with
  | SDKKey c => map_index (allEnvironments r) c
  | MobileKey c => map_index (envsByMobileKey r) c
  | EnvironmentID c => map_index (envsByEnvID r) c
  | OtherCredential _ => None
  end.

(** ** GetAllEnvironments: a copy of the server-key map (never nil). *)
Definition GetAllEnvironments (r : RelayCore) : gmap string EnvContext :=
  match allEnvironments r with
  | Some g => g
  | None => ∅
  end.

(** ** AddEnvironment

    The outcomes of the two calls that leave this file, and the error the
    new environment's Close will return. *)
Record Collaborators := {
  x_ConfigureDataStore : option string;
  x_NewEnvContext : option string;
  x_closeError : option string
}.

Inductive AddResult :=
| AddOk (clientContext : EnvContext)
| AddFailed (err : Error)
| AddPanic.

Definition makeJSClientContext (envConfig : EnvConfig) : JSClientContext :=
  if decide (cfg_EnvID envConfig = "") then
    {| js_Origins := []; js_Proxy := None |}
  else
    {| js_Origins := cfg_AllowedOrigin envConfig;
       js_Proxy := Some {| proxy_InsecureSkipVerify := cfg_InsecureSkipVerify envConfig |} |}.

Definition with_allEnvironments (r : RelayCore) (g : gmap string EnvContext) : RelayCore :=
  {| allEnvironments := Some g;
     envsByMobileKey := envsByMobileKey r;
     envsByEnvID := envsByEnvID r;
     closed := closed r;
     constructed := constructed r;
     closeCalls := closeCalls r;
     warnings := warnings r |}.

Definition with_envsByMobileKey (r : RelayCore) (g : gmap string EnvContext) : RelayCore :=
  {| allEnvironments := allEnvironments r;
     envsByMobileKey := Some g;
     envsByEnvID := envsByEnvID r;
     closed := closed r;
     constructed := constructed r;
     closeCalls := closeCalls r;
     warnings := warnings r |}.

Definition with_envsByEnvID (r : RelayCore) (g : gmap string EnvContext) : RelayCore :=
  {| allEnvironments := allEnvironments r;
     envsByMobileKey := envsByMobileKey r;
     envsByEnvID := Some g;
     closed := closed r;
     constructed := constructed r;
     closeCalls := closeCalls r;
     warnings := warnings r |}.

Definition with_constructed (r : RelayCore) (e : EnvContext) : RelayCore :=
  {| allEnvironments := allEnvironments r;
     envsByMobileKey := envsByMobileKey r;
     envsByEnvID := envsByEnvID r;
     closed := closed r;
     constructed := constructed r ++ [e];
     closeCalls := closeCalls r;
     warnings := warnings r |}.

(** Modelled from the spec: relayenv.NewEnvContext, defined in another
    package.  On success it constructs the EnvContext for the given name and
    EnvConfig: a new object, distinct from every earlier one, whose
    GetCredentials returns the credentials of the configuration. *)
Definition NewEnvContext (r : RelayCore) (envName : string) (envConfig : EnvConfig)
    (jsClientContext : JSClientContext) (x : Collaborators) : EnvContext :=
  {| env_id := length (constructed r);
     env_name := envName;
     env_credentials :=
       {| cred_SDKKey := cfg_SDKKey envConfig;
          cred_MobileKey := cfg_MobileKey envConfig;
          cred_EnvironmentID := cfg_EnvID envConfig |};
     env_jsClientContext := jsClientContext;
     env_closeError := x_closeError x |}.

Definition AddEnvironment (r : RelayCore) (envName : string) (envConfig : EnvConfig)
    (x : Collaborators) : AddResult * RelayCore :=
  if closed r then (AddFailed errAlreadyClosed, r) else
  match x_ConfigureDataStore x with
  | Some err => (AddFailed (errConfigureDataStore err), r)
  | None =>
    let jsClientContext := makeJSClientContext envConfig in
    match x_NewEnvContext x with
    | Some err => (AddFailed (errNewClientContextFailed envName err), r)
    | None =>
      let clientContext := NewEnvContext r envName envConfig jsClientContext x in
      let r := with_constructed r clientContext in
      match map_assign (allEnvironments r) (cfg_SDKKey envConfig) clientContext with
      | None => (AddPanic, r)
      | Some g =>
        let r := with_allEnvironments r g in
        let step2 :=
          if decide (cfg_MobileKey envConfig = "") then Some r
          else with_envsByMobileKey r <$>
                 map_assign (envsByMobileKey r) (cfg_MobileKey envConfig) clientContext in
        match step2 with
        | None => (AddPanic, r)
        | Some r =>
          let step3 :=
            if decide (cfg_EnvID envConfig = "") then Some r
            else with_envsByEnvID r <$>
                   map_assign (envsByEnvID r) (cfg_EnvID envConfig) clientContext in
          match step3 with
          | None => (AddPanic, r)
          | Some r => (AddOk clientContext, r)
          end
        end
      end
    end
  end.

(** ** Closing one environment

    env.Close() belongs to the EnvContext implementation; the call is
    recorded, and its error, if any, goes to loggers.Warnf. *)
Definition closeEnv (env : EnvContext) (r : RelayCore) : RelayCore :=
  {| allEnvironments := allEnvironments r;
     envsByMobileKey := envsByMobileKey r;
     envsByEnvID := envsByEnvID r;
     closed := closed r;
     constructed := constructed r;
     closeCalls := closeCalls r ++ [CloseEnv (env_id env)];
     warnings :=
       match env_closeError env with
       | Some err => warnings r ++ ["unexpected error when closing environment: " +:+ err]
       | None => warnings r
       end |}.

(** ** RemoveEnvironment *)
Definition RemoveEnvironment (r : RelayCore) (sdkKey : string) : bool * RelayCore :=
  match map_index (allEnvironments r) sdkKey with
  | Some env =>
    let r :=
      {| allEnvironments := map_delete (allEnvironments r) sdkKey;
         envsByMobileKey :=
           map_delete (envsByMobileKey r) (cred_MobileKey (env_credentials env));
         envsByEnvID :=
           map_delete (envsByEnvID r) (cred_EnvironmentID (env_credentials env));
         closed := closed r;
         constructed := constructed r;
         closeCalls := closeCalls r;
         warnings := warnings r |} in
    (true, closeEnv env r)
  | None => (false, r)
  end.

(** ** Close

    Go leaves the iteration order of [range envs] unspecified.  CloseIn is
    Close with that order given: [visit] lists the environments in the
    order in which the loop comes to them, an arrangement of the values of
    allEnvironments.  Close is the run that comes to them in the order of
    [map_to_list]. *)
Definition closeResource (c : Closeable) (r : RelayCore) : RelayCore :=
  {| allEnvironments := allEnvironments r;
     envsByMobileKey := envsByMobileKey r;
     envsByEnvID := envsByEnvID r;
     closed := closed r;
     constructed := constructed r;
     closeCalls := closeCalls r ++ [c];
     warnings := warnings r |}.

Definition CloseIn (visit : list EnvContext) (r : RelayCore) : RelayCore :=
  if closed r then r else
  let r :=
    {| allEnvironments := None;
       envsByMobileKey := None;
       envsByEnvID := None;
       closed := true;
       constructed := constructed r;
       closeCalls := closeCalls r;
       warnings := warnings r |} in
  let r := closeResource CloseMetricsManager r in
  let r := foldl (fun r env => closeEnv env r) r visit in
  foldl (fun r sp => closeResource (CloseStreamProvider sp) r) r allStreamProviders.

Definition Close (r : RelayCore) : RelayCore :=
  CloseIn (match allEnvironments r with Some g => (map_to_list g).*2 | None => [] end) r.

(** ** WaitForAllClients

    The method reads one field of the RelayCore, len(r.allEnvironments),
    and then depends on what arrives from outside: the contexts received
    from clientInitCh, each with the result of its GetInitError, and which
    branch of the select fires.  [reports] lists the contexts that the
    goroutine can receive from the channel, in the order of arrival; when
    they run out the receive blocks for ever.  [timerFirst] tells whether,
    with a positive timeout, the timer fires before the result of the
    goroutine is there to be taken. *)
Record InitReport := {
  rep_env : EnvContext;
  rep_initError : option string
}.

(** ctx.GetInitError() != nil *)
Definition initFailed (ctx : InitReport) : bool :=
  match rep_initError ctx with
  | Some _ => true
  | None => false
  end.

(** The loop of the goroutine, counting down numEnvironments - numFinished;
    [None]: it blocks on the channel and sends no result. *)
Fixpoint receiveReports (remaining : nat) (reports : list InitReport) (failed : bool)
    : option bool :=
  match remaining with
  | O => Some failed
  | S remaining =>
    match reports with
    | [] => None
    | ctx :: reports =>
      receiveReports remaining reports (if initFailed ctx then true else failed)
    end
  end.

Inductive WaitResult :=
| WaitReturned (err : option Error)
| WaitBlocked.

Definition WaitForAllClients (r : RelayCore) (timeout : Z) (reports : list InitReport)
    (timerFirst : bool) : WaitResult :=
  let numEnvironments :=
    match allEnvironments r with Some g => size g | None => 0%nat end in
  match receiveReports numEnvironments reports false with
  | Some failed =>
    if (0 <? timeout)%Z && timerFirst then WaitReturned (Some errInitializationTimeout)
    else if failed then WaitReturned (Some errSomeEnvironmentFailed)
    else WaitReturned None
  | None =>
    if (0 <? timeout)%Z then WaitReturned (Some errInitializationTimeout)
    else WaitBlocked
  end.

(** ** Sequences of calls on one RelayCore *)
Inductive Call :=
| CallAdd (envName : string) (envConfig : EnvConfig) (x : Collaborators)
| CallRemove (sdkKey : string)
| CallClose.

Definition call (r : RelayCore) (c : Call) : RelayCore :=
  match c with
  | CallAdd envName envConfig x => snd (AddEnvironment r envName envConfig x)
  | CallRemove sdkKey => snd (RemoveEnvironment r sdkKey)
  | CallClose => Close r
  end.

Definition run (r : RelayCore) (calls : list Call) : RelayCore := foldl call r calls.

Inductive reachable : RelayCore -> Prop :=
| reachable_new : reachable newRelayCore
| reachable_call r c : reachable r -> reachable (call r c).

(** An environment is live when it has been constructed and Close has not
    been called on it. *)
Definition live (r : RelayCore) (env : EnvContext) : Prop :=
  env ∈ constructed r ∧ CloseEnv (env_id env) ∉ closeCalls r.

(** A credential belongs to an environment when it is one of the
    credentials the environment was configured with (an empty mobile key or
    environment ID means: not set). *)
Definition belongs (credential : SDKCredential) (env : EnvContext) : Prop :=
  match credential with
  | SDKKey k => cred_SDKKey (env_credentials env) = k
  | MobileKey k => k ≠ "" ∧ cred_MobileKey (env_credentials env) = k
  | EnvironmentID k => k ≠ "" ∧ cred_EnvironmentID (env_credentials env) = k
  | OtherCredential _ => False
  end.

(** ** Derived notions used to state the properties *)

(** The environments that the server-key map holds. *)
Definition indexedEnvs (r : RelayCore) : list EnvContext :=
  match allEnvironments r with
  | Some g => (map_to_list g).*2
  | None => []
  end.

(** How often Close has been called on a resource. *)
Definition closeCount (r : RelayCore) (c : Closeable) : nat :=
  count_occ Closeable_eq_dec (closeCalls r) c.

(** The invariant of the credential index: identities are allocation
    numbers, only constructed environments are closed, every index entry
    leads to a live environment that owns the key, and the maps are nil
    exactly when the RelayCore is closed. *)
Record inv (r : RelayCore) : Prop := {
  inv_ids : ∀ i e, constructed r !! i = Some e -> env_id e = i;
  inv_closeCalls : ∀ i, CloseEnv i ∈ closeCalls r -> (i < length (constructed r))%nat;
  inv_all : ∀ k e, map_index (allEnvironments r) k = Some e ->
      live r e ∧ cred_SDKKey (env_credentials e) = k;
  inv_mobile : ∀ k e, map_index (envsByMobileKey r) k = Some e ->
      live r e ∧ k ≠ "" ∧ cred_MobileKey (env_credentials e) = k;
  inv_envID : ∀ k e, map_index (envsByEnvID r) k = Some e ->
      live r e ∧ k ≠ "" ∧ cred_EnvironmentID (env_credentials e) = k;
  inv_open : closed r = false ->
      is_Some (allEnvironments r) ∧ is_Some (envsByMobileKey r) ∧ is_Some (envsByEnvID r);
  inv_shut : closed r = true ->
      allEnvironments r = None ∧ envsByMobileKey r = None ∧ envsByEnvID r = None;
  inv_open_calls : closed r = false ->
      ∀ c, c ∈ closeCalls r -> ∃ i, c = CloseEnv i
}.

(** AddEnvironment on an open RelayCore whose collaborators succeed. *)
Definition added (r : RelayCore) (envName : string) (envConfig : EnvConfig)
    (x : Collaborators) (ga gm gi : gmap string EnvContext) : RelayCore :=
  let e := NewEnvContext r envName envConfig (makeJSClientContext envConfig) x in
  {| allEnvironments := Some (<[cfg_SDKKey envConfig := e]> ga);
     envsByMobileKey :=
       Some (if decide (cfg_MobileKey envConfig = "") then gm
             else <[cfg_MobileKey envConfig := e]> gm);
     envsByEnvID :=
       Some (if decide (cfg_EnvID envConfig = "") then gi
             else <[cfg_EnvID envConfig := e]> gi);
     closed := false;
     constructed := constructed r ++ [e];
     closeCalls := closeCalls r;
     warnings := warnings r |}.

(** The state RemoveEnvironment leaves when it finds [env] under the key. *)
Definition removed (r : RelayCore) (sdkKey : string) (env : EnvContext) : RelayCore :=
  closeEnv env
    {| allEnvironments := map_delete (allEnvironments r) sdkKey;
       envsByMobileKey :=
         map_delete (envsByMobileKey r) (cred_MobileKey (env_credentials env));
       envsByEnvID :=
         map_delete (envsByEnvID r) (cred_EnvironmentID (env_credentials env));
       closed := closed r;
       constructed := constructed r;
       closeCalls := closeCalls r;
       warnings := warnings r |}.

(** A configuration shares a credential with an environment. *)
Definition shares (envConfig : EnvConfig) (env : EnvContext) : Prop :=
  belongs (SDKKey (cfg_SDKKey envConfig)) env ∨
  belongs (MobileKey (cfg_MobileKey envConfig)) env ∨
  belongs (EnvironmentID (cfg_EnvID envConfig)) env.

(** The states reached when no environment is ever added with a credential
    of an environment that is live at that moment. *)
Inductive reachable_distinct : RelayCore -> Prop :=
| distinct_new : reachable_distinct newRelayCore
| distinct_add r envName envConfig x :
    reachable_distinct r ->
    (∀ env, live r env -> ¬ shares envConfig env) ->
    reachable_distinct (call r (CallAdd envName envConfig x))
| distinct_remove r sdkKey :
    reachable_distinct r -> reachable_distinct (call r (CallRemove sdkKey))
| distinct_close r :
    reachable_distinct r -> reachable_distinct (call r CallClose).

(** A call touches a credential when it can change what GetEnvironment
    returns for it: an AddEnvironment whose configuration has the
    credential, a RemoveEnvironment that finds an environment under its key
    when the credential is that key, or the mobile key or the environment
    ID of the environment found, and Close. *)
Definition touches (r : RelayCore) (c : Call) (credential : SDKCredential) : Prop :=
  match c with
  | CallAdd _ envConfig _ =>
    match credential with
    | SDKKey k => cfg_SDKKey envConfig = k
    | MobileKey k => cfg_MobileKey envConfig = k
    | EnvironmentID k => cfg_EnvID envConfig = k
    | OtherCredential _ => False
    end
  | CallRemove sdkKey =>
    match map_index (allEnvironments r) sdkKey with
    | Some env =>
      match credential with
      | SDKKey k => sdkKey = k
      | MobileKey k => cred_MobileKey (env_credentials env) = k
      | EnvironmentID k => cred_EnvironmentID (env_credentials env) = k
      | OtherCredential _ => False
      end
    | None => False
    end
  | CallClose => True
  end.

(** No call of the sequence touches the credential, each call taken in the
    state in which it is made. *)
Fixpoint untouched (r : RelayCore) (calls : list Call) (credential : SDKCredential)
    : Prop :=
  match calls with
  | [] => True
  | c :: calls => ¬ touches r c credential ∧ untouched (call r c) calls credential
  end.

(** ** Sample values: the environment of the add-then-lookup scenario *)
Definition sampleEnvConfig : EnvConfig := {|
  cfg_SDKKey := "sdk-A";
  cfg_MobileKey := "mob-A";
  cfg_EnvID := "env-A";
  cfg_AllowedOrigin := [];
  cfg_InsecureSkipVerify := false
|}.

Definition succeeding : Collaborators := {|
  x_ConfigureDataStore := None;
  x_NewEnvContext := None;
  x_closeError := None
|}.

Definition sampleCore : RelayCore :=
  call newRelayCore (CallAdd "env A" sampleEnvConfig succeeding).

Definition sampleEnvContext : EnvContext :=
  NewEnvContext newRelayCore "env A" sampleEnvConfig
    (makeJSClientContext sampleEnvConfig) succeeding.

(** ** NewRelayCore

    What NewRelayCore reads of its configuration and surroundings: the
    outcome of config.ValidateConfig, the configured environments in the
    order in which [range c.Environment] visits them (a nil pointer is
    [None]) with the outcomes of the collaborators of each add, the outcome
    of metrics.NewManager, whether Main.BaseURI is defined and whether the
    default base URI parses. *)
Record CoreConfig := {
  c_ValidateConfig : option string;
  c_Environment : list (string * option EnvConfig * Collaborators);
  c_NewManager : option string;
  c_BaseURI_defined : bool;
  c_DefaultBaseURI_parses : bool
}.

Inductive NewCoreError :=
| errValidateConfig (err : string)
| errNewMetricsManagerFailed (err : string)
| errCore (err : Error).

(** The result of NewRelayCore.  On failure the RelayCore is dropped; what
    remains observable are the environments constructed before the failure
    and the Close calls made by the deferred clean-up. *)
Inductive NewCoreResult :=
| NewCoreOk (r : RelayCore)
| NewCoreFailed (err : NewCoreError) (envs : list EnvContext) (cleanup : list Closeable)
| NewCorePanic.

(** The verb %q on a name of printable ASCII characters: the name between
    double quotes, with a backslash before each double quote and each
    backslash of the name. *)
Fixpoint escaped (name : string) : string :=
  match name with
  | EmptyString => EmptyString
  | String c rest =>
    if Ascii.eqb c "034"%char || Ascii.eqb c "092"%char
    then String "092"%char (String c (escaped rest))
    else String c (escaped rest)
  end.

Definition quoted (name : string) : string :=
  String "034"%char (escaped name) +:+ String "034"%char EmptyString.

Definition Warnf (r : RelayCore) (msg : string) : RelayCore :=
  {| allEnvironments := allEnvironments r;
     envsByMobileKey := envsByMobileKey r;
     envsByEnvID := envsByEnvID r;
     closed := closed r;
     constructed := constructed r;
     closeCalls := closeCalls r;
     warnings := warnings r ++ [msg] |}.

Inductive LoopResult :=
| LoopDone (r : RelayCore) (thingsToCleanUp : list Closeable)
| LoopFailed (err : Error) (r : RelayCore) (thingsToCleanUp : list Closeable)
| LoopPanic.

(** The loop over c.Environment; [thingsToCleanUp] holds the registered
    clean-up tasks, oldest first. *)
Fixpoint addConfigured (envs : list (string * option EnvConfig * Collaborators))
    (r : RelayCore) (thingsToCleanUp : list Closeable) : LoopResult :=
  match envs with
  | [] => LoopDone r thingsToCleanUp
  | (envName, None, _) :: rest =>
    addConfigured rest
      (Warnf r ("environment config was nil for environment " +:+ quoted envName
                +:+ "; ignoring"))
      thingsToCleanUp
  | (envName, Some envConfig, x) :: rest =>
    match AddEnvironment r envName envConfig x with
    | (AddOk env, r) => addConfigured rest r (thingsToCleanUp ++ [CloseEnv (env_id env)])
    | (AddFailed err, r) => LoopFailed err r thingsToCleanUp
    | (AddPanic, _) => LoopPanic
    end
  end.

(** Modelled from the spec: util.CleanupTasks, defined in another package.
    By the spec the registered teardown callbacks are unwound in reverse on
    failure, and the stack is cleared on success. *)
Definition CleanupTasks_Run (thingsToCleanUp : list Closeable) : list Closeable :=
  reverse thingsToCleanUp.

Definition NewRelayCore (c : CoreConfig) : NewCoreResult :=
  match c_ValidateConfig c with
  | Some err => NewCoreFailed (errValidateConfig err) [] (CleanupTasks_Run [])
  | None =>
    if (length (c_Environment c) =? 0)%nat
    then NewCoreFailed (errCore errNoEnvironments) [] (CleanupTasks_Run [])
    else
      match c_NewManager c with
      | Some err => NewCoreFailed (errNewMetricsManagerFailed err) [] (CleanupTasks_Run [])
      | None =>
        let thingsToCleanUp := [CloseMetricsManager] in
        let r := newRelayCore in
        if negb (c_BaseURI_defined c) && negb (c_DefaultBaseURI_parses c)
        then NewCoreFailed (errCore errDefaultBaseURLInvalid) []
                           (CleanupTasks_Run thingsToCleanUp)
        else
          match addConfigured (c_Environment c) r thingsToCleanUp with
          | LoopDone r _ => NewCoreOk r
          | LoopFailed err r thingsToCleanUp =>
            NewCoreFailed (errCore err) (constructed r) (CleanupTasks_Run thingsToCleanUp)
          | LoopPanic => NewCorePanic
          end
      end
  end.

(** The AddEnvironment calls that NewRelayCore makes for a list of
    configured environments. *)
Definition configuredCalls (envs : list (string * option EnvConfig * Collaborators))
    : list Call :=
  omap (fun '(envName, envConfig, x) =>
          (fun envConfig => CallAdd envName envConfig x) <$> envConfig) envs.

(** Everything of a RelayCore but its log of warnings. *)
Definition sansWarnings (r : RelayCore) :=
  (allEnvironments r, envsByMobileKey r, envsByEnvID r, closed r,
   constructed r, closeCalls r).

Definition collaboratorsSucceed (x : Collaborators) : Prop :=
  x_ConfigureDataStore x = None ∧ x_NewEnvContext x = None.

(** What holds each time the loop of NewRelayCore is entered: the RelayCore
    is well formed and open, nothing has been closed, and the registered
    clean-up tasks are the metrics manager and every environment
    constructed. *)
Definition loopInvariant (r : RelayCore) (thingsToCleanUp : list Closeable) : Prop :=
  inv r ∧ closed r = false ∧ closeCalls r = [] ∧
  thingsToCleanUp = CloseMetricsManager :: ((fun e => CloseEnv (env_id e)) <$> constructed r).

(** ** More sample values *)

(** A second environment that has the mobile key of the first. *)
Definition sampleEnvConfigB : EnvConfig := {|
  cfg_SDKKey := "sdk-B";
  cfg_MobileKey := "mob-A";
  cfg_EnvID := "";
  cfg_AllowedOrigin := [];
  cfg_InsecureSkipVerify := false
|}.

(** A third environment with credentials of its own. *)
Definition sampleEnvConfigC : EnvConfig := {|
  cfg_SDKKey := "sdk-C";
  cfg_MobileKey := "";
  cfg_EnvID := "env-C";
  cfg_AllowedOrigin := ["https://example.com"];
  cfg_InsecureSkipVerify := true
|}.

Definition failing : Collaborators := {|
  x_ConfigureDataStore := None;
  x_NewEnvContext := Some "no such flag service";
  x_closeError := None
|}.

Definition sampleCoreAB : RelayCore :=
  call sampleCore (CallAdd "env B" sampleEnvConfigB succeeding).

Definition sampleEnvContextB : EnvContext :=
  NewEnvContext sampleCore "env B" sampleEnvConfigB
    (makeJSClientContext sampleEnvConfigB) succeeding.

(** A configuration with the server key of the first environment and a
    mobile key of its own; the RelayCore after adding it to the first. *)
Definition sampleEnvConfigZ : EnvConfig := {|
  cfg_SDKKey := "sdk-A";
  cfg_MobileKey := "mob-Z";
  cfg_EnvID := "";
  cfg_AllowedOrigin := [];
  cfg_InsecureSkipVerify := false
|}.

Definition sampleCoreAZ : RelayCore :=
  call sampleCore (CallAdd "env Z" sampleEnvConfigZ succeeding).

Definition sampleEnvContextZ : EnvContext :=
  NewEnvContext sampleCore "env Z" sampleEnvConfigZ
    (makeJSClientContext sampleEnvConfigZ) succeeding.

(** The first and the third environment, and the RelayCore after the first
    has been removed again. *)
Definition sampleCoreAC : RelayCore :=
  call sampleCore (CallAdd "env C" sampleEnvConfigC succeeding).

Definition sampleEnvContextC : EnvContext :=
  NewEnvContext sampleCore "env C" sampleEnvConfigC
    (makeJSClientContext sampleEnvConfigC) succeeding.

Definition sampleCoreC : RelayCore := call sampleCoreAC (CallRemove "sdk-A").

Definition sampleCoreConfig (last : Collaborators) : CoreConfig := {|
  c_ValidateConfig := None;
  c_Environment :=
    [("env A", Some sampleEnvConfig, succeeding);
     ("env nil", None, succeeding);
     ("env C", Some sampleEnvConfigC, last)];
  c_NewManager := None;
  c_BaseURI_defined := true;
  c_DefaultBaseURI_parses := true
|}.

End relay.

(* ===================================================================== *)
(** * Package events: event-relay.go                                      *)
(* ===================================================================== *)

Module events.

(** json.RawMessage and request bodies are byte strings. *)
Definition RawMessage : Type := string.

Record Config := {
  EventsUri : string;
  SendEvents : bool;
  FlushIntervalSecs : Z;
  SamplingInterval : Z; (* int32 *)
  Capacity : Z;
  InlineUsers : bool
}.

Inductive Endpoint :=
| ServerSDKEventsEndpoint
| MobileSDKEventsEndpoint
| JavaScriptSDKEventsEndpoint.

Definition Endpoint_String (e : Endpoint) : string :=
  match e with
  | ServerSDKEventsEndpoint => "ServerSDKEventsEndpoint"
  | MobileSDKEventsEndpoint => "MobileSDKEventsEndpoint"
  | JavaScriptSDKEventsEndpoint => "JavaScriptSDKEventsEndpoint"
  end.

Definition SummaryEventsSchemaVersion : Z := 3.
Definition EventSchemaHeader : string := "X-LaunchDarkly-Event-Schema".

Definition StatusBadRequest : Z := 400.
Definition StatusAccepted : Z := 202.
Definition StatusOK : Z := 200.

(** ** strconv.Atoi

    The Go library function, on a platform whose int has [intSize] bits:
    the fast path for short inputs, and ParseInt(s, 10, 0) with
    ParseUint for the rest.  Values are kept in Z and wrapped where the Go
    types wrap. *)
Inductive NumError := ErrSyntax | ErrRange.

Definition byte_val (c : ascii) : Z := Z.of_N (N_of_ascii c).
Definition wrap_uint (w x : Z) : Z := x mod 2 ^ w.
Definition wrap_int (w x : Z) : Z := (x + 2 ^ (w - 1)) mod 2 ^ w - 2 ^ (w - 1).

Definition is_sign (c : ascii) : bool :=
  (byte_val c =? 45) || (byte_val c =? 43). (* '-' or '+' *)

Definition is_minus (c : ascii) : bool := byte_val c =? 45.

(* for _, ch := range []byte(s) { ch -= '0'; if ch > 9 {...}; n = n*10 + int(ch) } *)
Fixpoint atoi_fast_loop (intSize : Z) (s : string) (n : Z) : option Z :=
  match s with
  | EmptyString => Some n
  | String c rest =>
    let ch := wrap_uint 8 (byte_val c - 48) in
    if 9 <? ch then None
    else atoi_fast_loop intSize rest (wrap_int intSize (n * 10 + ch))
  end.

(* maxUint64/10 + 1 *)
Definition parseUint_cutoff : Z := (2 ^ 64 - 1) / 10 + 1.

(* The loop of ParseUint for base 10.  A letter has digit value >= 10 and
   any other byte (an underscore too, the base being explicit) is no digit:
   both are syntax errors. *)
Fixpoint ParseUint_loop (maxVal : Z) (s : string) (n : Z) : Z * option NumError :=
  match s with
  | EmptyString => (n, None)
  | String c rest =>
    let b := byte_val c in
    if (48 <=? b) && (b <=? 57) then
      let d := b - 48 in
      if parseUint_cutoff <=? n then (maxVal, Some ErrRange)
      else
        let n := wrap_uint 64 (n * 10) in
        let n1 := wrap_uint 64 (n + d) in
        if (n1 <? n) || (maxVal <? n1) then (maxVal, Some ErrRange)
        else ParseUint_loop maxVal rest n1
    else (0, Some ErrSyntax)
  end.

Definition ParseUint (intSize : Z) (s : string) : Z * option NumError :=
  match s with
  | EmptyString => (0, Some ErrSyntax)
  | _ => ParseUint_loop (2 ^ intSize - 1) s 0
  end.

Definition ParseInt (intSize : Z) (s0 : string) : Z * option NumError :=
  match s0 with
  | EmptyString => (0, Some ErrSyntax)
  | String c rest =>
    let neg := is_minus c in
    let s := if is_sign c then rest else s0 in
    match ParseUint intSize s with
    | (_, Some ErrSyntax) => (0, Some ErrSyntax)
    | (un, _) =>
      let cutoff := 2 ^ (intSize - 1) in
      if negb neg && (cutoff <=? un) then (cutoff - 1, Some ErrRange)
      else if neg && (cutoff <? un) then (- cutoff, Some ErrRange)
      else
        let n := wrap_int 64 un in
        (if neg then wrap_int 64 (- n) else n, None)
    end
  end.

Definition Atoi (intSize : Z) (s : string) : Z * option NumError :=
  let sLen := Z.of_nat (String.length s) in
  if (intSize =? 32) && (0 <? sLen) && (sLen <? 10)
     || (intSize =? 64) && (0 <? sLen) && (sLen <? 19)
  then
    match s with
    | EmptyString => (0, Some ErrSyntax)
    | String c rest =>
      let s' := if is_sign c then rest else s in
      if is_sign c && (Z.of_nat (String.length s') <? 1) then (0, Some ErrSyntax)
      else
        match atoi_fast_loop intSize s' 0 with
        | None => (0, Some ErrSyntax)
        | Some n => (if is_minus c then wrap_int intSize (- n) else n, None)
        end
    end
  else
    let '(i64, err) := ParseInt intSize s in (wrap_int intSize i64, err).

(** ** strings.TrimRight(s, "/") *)
Fixpoint TrimRight_slash (s : string) : string :=
  match s with
  | EmptyString => EmptyString
  | String c rest =>
    match TrimRight_slash rest with
    | EmptyString => if byte_val c =? 47 then EmptyString else String c EmptyString
    | rest' => String c rest'
    end
  end.

(** ** The publisher

    Modelled from the spec: EventPublisher, an interface of this package
    implemented in another file.  By the spec PublishRaw posts the given
    records to the publisher's queue without blocking.  A publisher is
    represented by the options it was created with and by the PublishRaw
    calls it has received, oldest first. *)
Inductive OptionType :=
| OptionCapacity (n : Z)
| OptionEndpointURI (uri : string)
| OptionClient
| OptionFlushInterval (d : Z). (* a time.Duration: int64 nanoseconds *)

Record EventPublisher := {
  pub_sdkKey : string;
  pub_options : list OptionType;
  pub_raw : list (list RawMessage)
}.

Definition PublishRaw (p : EventPublisher) (evts : list RawMessage) : EventPublisher :=
  {| pub_sdkKey := pub_sdkKey p;
     pub_options := pub_options p;
     pub_raw := pub_raw p ++ [evts] |}.

Record eventVerbatimRelay := {
  vr_config : Config;
  (* nil when NewHttpEventPublisher failed: its error is discarded *)
  vr_publisher : option EventPublisher
}.

(** The PublishRaw calls the relay's publisher has received. *)
Definition vr_raw (er : eventVerbatimRelay) : list (list RawMessage) :=
  match vr_publisher er with
  | Some p => pub_raw p
  | None => []
  end.

(** Modelled from the spec: eventSummarizingRelay, defined in another file
    of the package.  The dispatcher only constructs it and calls its
    enqueue with the records and the payload version; it is represented by
    its constructor arguments and the enqueue calls received. *)
Record eventSummarizingRelay := {
  sr_authKey : string;
  sr_config : Config;
  sr_remotePath : string;
  sr_enqueued : list (list RawMessage * Z)
}.

Definition summarizing_enqueue (sr : eventSummarizingRelay) (evts : list RawMessage)
    (payloadVersion : Z) : eventSummarizingRelay :=
  {| sr_authKey := sr_authKey sr;
     sr_config := sr_config sr;
     sr_remotePath := sr_remotePath sr;
     sr_enqueued := sr_enqueued sr ++ [(evts, payloadVersion)] |}.

Inductive LogEntry :=
| LogErrorReadingBody (err : string)
| LogErrorUnmarshaling (err : string)
| LogUnexpectedPanic (err : string)
| LogReceived (count : Z) (payloadVersion : Z) (remotePath : string).

Record eventEndpointDispatcher := {
  d_config : Config;
  d_authKey : string;
  d_remotePath : string;
  d_verbatimRelay : option eventVerbatimRelay;
  d_summarizingRelay : option eventSummarizingRelay;
  (* r.loggers *)
  d_loggers : list LogEntry
}.

(** What dispatchEvents reads of an http.Request: the two results of
    ioutil.ReadAll(req.Body), and the header as name-value pairs with the
    names in canonical form. *)
Record Request := {
  req_Body : string;
  req_BodyErr : option string;
  req_Header : list (string * string)
}.

(** textproto.CanonicalMIMEHeaderKey, which Header.Get applies to the name
    it is asked for: the first letter and every letter after a hyphen in
    upper case, the other letters in lower case; a name with a byte that is
    no header-field byte is returned as it is. *)
Definition validHeaderFieldByte (c : ascii) : bool :=
  let b := byte_val c in
  (48 <=? b) && (b <=? 57) || (65 <=? b) && (b <=? 90) || (97 <=? b) && (b <=? 122)
  || existsb (Z.eqb b) [33; 35; 36; 37; 38; 39; 42; 43; 45; 46; 94; 95; 96; 124; 126].

Fixpoint allBytes (f : ascii -> bool) (s : string) : bool :=
  match s with
  | EmptyString => true
  | String c rest => f c && allBytes f rest
  end.

Fixpoint canonicalMIMEHeaderKey (upper : bool) (a : string) : string :=
  match a with
  | EmptyString => EmptyString
  | String c rest =>
    let b := byte_val c in
    let b :=
      if upper && (97 <=? b) && (b <=? 122) then b - 32
      else if negb upper && (65 <=? b) && (b <=? 90) then b + 32
      else b in
    String (ascii_of_N (Z.to_N b)) (canonicalMIMEHeaderKey (b =? 45) rest)
  end.

Definition CanonicalMIMEHeaderKey (s : string) : string :=
  if allBytes validHeaderFieldByte s then canonicalMIMEHeaderKey true s else s.

(** The first value stored under a name exactly, or the empty string. *)
Fixpoint header_first (h : list (string * string)) (name : string) : string :=
  match h with
  | [] => ""
  | (k, v) :: rest => if decide (k = name) then v else header_first rest name
  end.

(** Header.Get: the first value stored under the canonical form of the
    name, or the empty string. *)
Definition Header_Get (h : list (string * string)) (key : string) : string :=
  header_first h (CanonicalMIMEHeaderKey key).

Record ResponseWriter := {
  rw_status : option Z;
  rw_body : string
}.

Definition newResponseWriter : ResponseWriter := {| rw_status := None; rw_body := "" |}.

Definition WriteHeader (w : ResponseWriter) (code : Z) : ResponseWriter :=
  match rw_status w with
  | Some _ => w
  | None => {| rw_status := Some code; rw_body := rw_body w |}
  end.

Definition Write (w : ResponseWriter) (b : string) : ResponseWriter :=
  {| rw_status := Some (default StatusOK (rw_status w));
     rw_body := rw_body w +:+ b |}.

Definition dquote : string := String "034"%char EmptyString.

(** Modelled from the spec: util.ErrorJsonMsg is defined in another package
    of the repository; by the spec the error envelope is the JSON object
    with the single member "message". *)
Definition ErrorJsonMsg (msg : string) : string :=
  "{" +:+ dquote +:+ "message" +:+ dquote +:+ ":" +:+ dquote +:+ msg +:+ dquote +:+ "}".

(** ** What the file takes from its surroundings

    - the size of int on the platform;
    - json.Unmarshal into a slice of json.RawMessage;
    - NewHttpEventPublisher, which may fail;
    - the process-wide generator rGen, of which only Int31n is used. *)
Class Runtime (Rand : Type) := {
  intSize : Z;
  json_Unmarshal : string -> string + list RawMessage;
  NewHttpEventPublisher : string -> list OptionType -> option EventPublisher;
  Int31n : Rand -> Z -> Z * Rand
}.

Inductive Outcome := Returned | Panicked (err : string).

Section code.
Context {Rand : Type} `{!Runtime Rand}.

Definition newEventEndpointDispatcher (authKey : string) (config : Config)
    (remotePath : string) : eventEndpointDispatcher :=
  {| d_config := config;
     d_authKey := authKey;
     d_remotePath := remotePath;
     d_verbatimRelay := None;
     d_summarizingRelay := None;
     d_loggers := [] |}.

(** The dispatcher of an environment: one endpoint dispatcher for the
    server SDK, one for the mobile SDK when there is a mobile key, one for
    the JavaScript SDK when there is an environment ID. *)
Record EventDispatcher := {
  endpoints : Endpoint -> option eventEndpointDispatcher
}.

Definition NewEventDispatcher (sdkKey : string) (mobileKey envID : option string)
    (config : Config) : EventDispatcher :=
  {| endpoints := fun endpoint =>
       match endpoint with
       | ServerSDKEventsEndpoint =>
         Some (newEventEndpointDispatcher sdkKey config "/bulk")
       | MobileSDKEventsEndpoint =>
         (fun key => newEventEndpointDispatcher key config "/mobile") <$> mobileKey
       | JavaScriptSDKEventsEndpoint =>
         (fun id => newEventEndpointDispatcher "" config ("/events/bulk/" +:+ id)) <$> envID
       end |}.

(** GetHandler: the endpoint dispatcher whose dispatchEvents serves the
    endpoint, or nil. *)
Definition GetHandler (r : EventDispatcher) (endpoint : Endpoint)
    : option eventEndpointDispatcher :=
  endpoints r endpoint.

(* time.Second, in nanoseconds; the product with the interval is taken in
   int64 and wraps. *)
Definition time_Second : Z := 1000000000.

Definition newEventVerbatimRelay (sdkKey : string) (config : Config)
    (remotePath : string) : eventVerbatimRelay :=
  let opts :=
    [OptionCapacity (Capacity config);
     OptionEndpointURI (TrimRight_slash (EventsUri config) +:+ remotePath);
     OptionClient] in
  let opts :=
    if 0 <? FlushIntervalSecs config
    then opts ++ [OptionFlushInterval (wrap_int 64 (FlushIntervalSecs config * time_Second))]
    else opts in
  {| vr_config := config;
     vr_publisher := NewHttpEventPublisher sdkKey opts |}.

Definition newEventSummarizingRelay (authKey : string) (config : Config)
    (remotePath : string) : eventSummarizingRelay :=
  {| sr_authKey := authKey;
     sr_config := config;
     sr_remotePath := remotePath;
     sr_enqueued := [] |}.

Definition set_verbatimRelay (r : eventEndpointDispatcher) (vr : eventVerbatimRelay)
    : eventEndpointDispatcher :=
  {| d_config := d_config r;
     d_authKey := d_authKey r;
     d_remotePath := d_remotePath r;
     d_verbatimRelay := Some vr;
     d_summarizingRelay := d_summarizingRelay r;
     d_loggers := d_loggers r |}.

Definition set_summarizingRelay (r : eventEndpointDispatcher) (sr : eventSummarizingRelay)
    : eventEndpointDispatcher :=
  {| d_config := d_config r;
     d_authKey := d_authKey r;
     d_remotePath := d_remotePath r;
     d_verbatimRelay := d_verbatimRelay r;
     d_summarizingRelay := Some sr;
     d_loggers := d_loggers r |}.

Definition Errorf (r : eventEndpointDispatcher) (e : LogEntry) : eventEndpointDispatcher :=
  {| d_config := d_config r;
     d_authKey := d_authKey r;
     d_remotePath := d_remotePath r;
     d_verbatimRelay := d_verbatimRelay r;
     d_summarizingRelay := d_summarizingRelay r;
     d_loggers := d_loggers r ++ [e] |}.

Definition getVerbatimRelay (r : eventEndpointDispatcher)
    : eventEndpointDispatcher * eventVerbatimRelay :=
  match d_verbatimRelay r with
  | Some vr => (r, vr)
  | None =>
    let vr := newEventVerbatimRelay (d_authKey r) (d_config r) (d_remotePath r) in
    (set_verbatimRelay r vr, vr)
  end.

Definition getSummarizingRelay (r : eventEndpointDispatcher)
    : eventEndpointDispatcher * eventSummarizingRelay :=
  match d_summarizingRelay r with
  | Some sr => (r, sr)
  | None =>
    let sr := newEventSummarizingRelay (d_authKey r) (d_config r) (d_remotePath r) in
    (set_summarizingRelay r sr, sr)
  end.

(** ** eventVerbatimRelay.enqueue

    Returns how the call ended, the relay (its publisher may have received
    the batch) and the state of rGen.  The generator is consulted only when
    the left operand of [&&] holds. *)
Definition enqueue (er : eventVerbatimRelay) (rGen : Rand) (evts : list RawMessage)
    : Outcome * eventVerbatimRelay * Rand :=
  if negb (SendEvents (vr_config er)) then (Returned, er, rGen)
  else
    let '(skip, rGen) :=
      if 0 <? SamplingInterval (vr_config er) then
        let '(v, rGen) := Int31n rGen (SamplingInterval (vr_config er)) in
        (negb (v =? 0), rGen)
      else (false, rGen) in
    if skip then (Returned, er, rGen)
    else
      match vr_publisher er with
      | None =>
        (Panicked "runtime error: invalid memory address or nil pointer dereference",
         er, rGen)
      | Some p =>
        (Returned,
         {| vr_config := vr_config er; vr_publisher := Some (PublishRaw p evts) |},
         rGen)
      end.

(** ** dispatchEvents

    The state the handler and its goroutine act on. *)
Record World := {
  w_dispatcher : eventEndpointDispatcher;
  w_rGen : Rand;
  (* logging.GlobalLoggers *)
  w_globalLoggers : list LogEntry
}.

Definition set_dispatcher (w : World) (r : eventEndpointDispatcher) : World :=
  {| w_dispatcher := r; w_rGen := w_rGen w; w_globalLoggers := w_globalLoggers w |}.

Definition payloadVersionOf (req : Request) : Z :=
  let payloadVersion := fst (Atoi intSize (Header_Get (req_Header req) EventSchemaHeader)) in
  if payloadVersion =? 0 then 1 else payloadVersion.

(** The body of the goroutine started by dispatchEvents, with its deferred
    recover. *)
Definition dispatchWorker (w : World) (body : string) (req : Request) : World :=
  let r := w_dispatcher w in
  match json_Unmarshal body with
  | inl err => set_dispatcher w (Errorf r (LogErrorUnmarshaling err))
  | inr evts =>
    let payloadVersion := payloadVersionOf req in
    let globalLoggers :=
      w_globalLoggers w ++
        [LogReceived (Z.of_nat (length evts)) payloadVersion (d_remotePath r)] in
    if SummaryEventsSchemaVersion <=? payloadVersion then
      let '(r, vr) := getVerbatimRelay r in
      let '(outcome, vr, rGen) := enqueue vr (w_rGen w) evts in
      let r := set_verbatimRelay r vr in
      let r :=
        match outcome with
        | Returned => r
        | Panicked err => Errorf r (LogUnexpectedPanic err)
        end in
      {| w_dispatcher := r; w_rGen := rGen; w_globalLoggers := globalLoggers |}
    else
      let '(r, sr) := getSummarizingRelay r in
      let r := set_summarizingRelay r (summarizing_enqueue sr evts payloadVersion) in
      {| w_dispatcher := r; w_rGen := w_rGen w; w_globalLoggers := globalLoggers |}
  end.

(** The synchronous part: the response written, the state, and the
    goroutine started (its captured body), if any. *)
Definition dispatchEvents (w : World) (rw : ResponseWriter) (req : Request)
    : ResponseWriter * World * option string :=
  let body := req_Body req in
  match req_BodyErr req with
  | Some bodyErr =>
    let r := Errorf (w_dispatcher w) (LogErrorReadingBody bodyErr) in
    let rw := WriteHeader rw StatusBadRequest in
    let rw := Write rw (ErrorJsonMsg "unable to read request body") in
    (rw, set_dispatcher w r, None)
  | None =>
    if (String.length body =? 0)%nat then
      let rw := WriteHeader rw StatusBadRequest in
      let rw := Write rw (ErrorJsonMsg "body may not be empty") in
      (rw, w, None)
    else
      let rw := WriteHeader rw StatusAccepted in
      (rw, w, Some body)
  end.

(** One request served on its own, to the end: the handler returns, then
    the goroutine it started runs. *)
Definition serve (w : World) (req : Request) : ResponseWriter * World :=
  let '(rw, w, started) := dispatchEvents w newResponseWriter req in
  match started with
  | Some body => (rw, dispatchWorker w body req)
  | None => (rw, w)
  end.

(** ** Serving requests one after the other

    One of the runs the code allows: each goroutine has finished before the
    next request is handled. *)
Definition serveAll (w : World) (reqs : list Request) : World :=
  foldl (fun w req => snd (serve w req)) w reqs.

(** ** Serving requests under any schedule

    dispatchEvents starts its goroutine with a go statement and returns, so
    nothing orders the goroutines of successive requests.  A server holds
    the requests not yet handled, the goroutines started and not yet run
    (each with the body it captured and its request), the responses written
    so far, and the world.  The scheduler either lets the handler of the
    next request run, or lets the i-th waiting goroutine run; the body of a
    goroutine is taken as one step. *)
Record Server := {
  sv_incoming : list Request;
  sv_goroutines : list (string * Request);
  sv_responses : list ResponseWriter;
  sv_world : World
}.

Inductive Choice := Handle | Run (i : nat).

Definition sched_step (s : Server) (c : Choice) : Server :=
  match c with
  | Handle =>
    match sv_incoming s with
    | [] => s
    | req :: incoming =>
      let '(rw, w, started) := dispatchEvents (sv_world s) newResponseWriter req in
      {| sv_incoming := incoming;
         sv_goroutines :=
           match started with
           | Some body => sv_goroutines s ++ [(body, req)]
           | None => sv_goroutines s
           end;
         sv_responses := sv_responses s ++ [rw];
         sv_world := w |}
    end
  | Run i =>
    match sv_goroutines s !! i with
    | None => s
    | Some (body, req) =>
      {| sv_incoming := sv_incoming s;
         sv_goroutines := delete i (sv_goroutines s);
         sv_responses := sv_responses s;
         sv_world := dispatchWorker (sv_world s) body req |}
    end
  end.

Definition schedule (s : Server) (choices : list Choice) : Server :=
  foldl sched_step s choices.

Definition startServer (w : World) (reqs : list Request) : Server :=
  {| sv_incoming := reqs; sv_goroutines := []; sv_responses := []; sv_world := w |}.

(** Every request has been handled and every goroutine has run. *)
Definition quiescent (s : Server) : Prop :=
  sv_incoming s = [] ∧ sv_goroutines s = [].

(** The requests whose goroutine, if any, has not run yet. *)
Definition outstanding (s : Server) : list Request :=
  (snd <$> sv_goroutines s) ++ sv_incoming s.

(** A waiting goroutine holds the body of its request, which was read
    without error and is not empty. *)
Definition wellStarted (s : Server) : Prop :=
  Forall (fun g : string * Request =>
            req_BodyErr (snd g) = None ∧ req_Body (snd g) ≠ "" ∧ fst g = req_Body (snd g))
         (sv_goroutines s).

(** The schedule of serveAll: the goroutine of a request runs as soon as
    its handler has returned. *)
Definition startsGoroutine (req : Request) : bool :=
  match req_BodyErr req with
  | Some _ => false
  | None => negb (String.length (req_Body req) =? 0)%nat
  end.

Fixpoint sequential (reqs : list Request) : list Choice :=
  match reqs with
  | [] => []
  | req :: reqs =>
    Handle :: (if startsGoroutine req then [Run 0] else []) ++ sequential reqs
  end.

(** The batch a request carries, with its payload version: none when the
    body cannot be read, is empty or does not parse. *)
Definition parsedBatch (req : Request) : option (list RawMessage * Z) :=
  match req_BodyErr req with
  | Some _ => None
  | None =>
    if decide (req_Body req = "") then None
    else
      match json_Unmarshal (req_Body req) with
      | inr evts => Some (evts, payloadVersionOf req)
      | inl _ => None
      end
  end.

Definition verbatimBatches (reqs : list Request) : list (list RawMessage) :=
  omap (fun req =>
          match parsedBatch req with
          | Some (evts, v) => if SummaryEventsSchemaVersion <=? v then Some evts else None
          | None => None
          end) reqs.

Definition summarizedBatches (reqs : list Request) : list (list RawMessage * Z) :=
  omap (fun req =>
          match parsedBatch req with
          | Some (evts, v) => if SummaryEventsSchemaVersion <=? v then None else Some (evts, v)
          | None => None
          end) reqs.

(** The relays of a dispatcher: the ones it holds, or else the ones its
    next call of getVerbatimRelay or getSummarizingRelay constructs. *)
Definition theVerbatimRelay (r : eventEndpointDispatcher) : eventVerbatimRelay :=
  snd (getVerbatimRelay r).

Definition theSummarizingRelay (r : eventEndpointDispatcher) : eventSummarizingRelay :=
  snd (getSummarizingRelay r).

End code.

(** A configuration with another events URI. *)
Definition set_EventsUri (config : Config) (uri : string) : Config :=
  {| EventsUri := uri;
     SendEvents := SendEvents config;
     FlushIntervalSecs := FlushIntervalSecs config;
     SamplingInterval := SamplingInterval config;
     Capacity := Capacity config;
     InlineUsers := InlineUsers config |}.

Fixpoint slashes (n : nat) : string :=
  match n with
  | O => ""
  | S n => String "/"%char (slashes n)
  end.

(** Decimal numerals: the string of a list of digits, most significant
    first, and the number it denotes. *)
Definition isDigit (d : Z) : Prop := 0 <= d <= 9.

Definition digitChar (d : Z) : ascii := ascii_of_N (Z.to_N (48 + d)).

Fixpoint digitsString (ds : list Z) : string :=
  match ds with
  | [] => ""
  | d :: ds => String (digitChar d) (digitsString ds)
  end.

Definition digitsValue (ds : list Z) : Z := foldl (fun acc d => acc * 10 + d) 0 ds.

(** A verbatim relay that forwards every batch: events are sent, nothing is
    sampled away, and there is a publisher. *)
Definition forwardsAll (er : eventVerbatimRelay) : Prop :=
  SendEvents (vr_config er) = true ∧
  SamplingInterval (vr_config er) <= 0 ∧
  is_Some (vr_publisher er).

(** The entry of the global log for a parsed batch. *)
Definition receivedEntry (remotePath : string) (batch : list RawMessage * Z) : LogEntry :=
  LogReceived (Z.of_nat (length (fst batch))) (snd batch) remotePath.

(** ** The three responses of dispatchEvents *)
Definition badRequest (msg : string) : ResponseWriter :=
  {| rw_status := Some StatusBadRequest; rw_body := ErrorJsonMsg msg |}.

Definition accepted : ResponseWriter :=
  {| rw_status := Some StatusAccepted; rw_body := "" |}.

(** ** A small runtime to evaluate the definitions on

    64-bit int; a parser that accepts only the empty array and one sample
    array; a publisher constructor that fails for the key "bad-key"; a linear
    congruential generator. *)
Definition sampleBody : string := "[{}]".

Definition sampleRuntime : Runtime Z := {|
  intSize := 64;
  json_Unmarshal := fun body =>
    if decide (body = "[]") then inr []
    else if decide (body = sampleBody) then inr ["{}"]
    else inl "invalid character";
  NewHttpEventPublisher := fun sdkKey opts =>
    if decide (sdkKey = "bad-key") then None
    else Some {| pub_sdkKey := sdkKey; pub_options := opts; pub_raw := [] |};
  Int31n := fun g n =>
    let g' := (g * 1103515245 + 12345) mod 2 ^ 31 in (g' mod n, g')
|}.

Definition sampleConfig (sendEvents : bool) (samplingInterval : Z) : Config := {|
  EventsUri := "https://events.example.com/";
  SendEvents := sendEvents;
  FlushIntervalSecs := 5;
  SamplingInterval := samplingInterval;
  Capacity := 1000;
  InlineUsers := false
|}.

Definition sampleRelay (sendEvents : bool) (samplingInterval : Z) : eventVerbatimRelay :=
  newEventVerbatimRelay (Runtime0 := sampleRuntime)
    "sdk-A" (sampleConfig sendEvents samplingInterval) "/bulk".

Definition sampleWorld (authKey : string) : World (Rand := Z) := {|
  w_dispatcher := newEventEndpointDispatcher authKey (sampleConfig true 0) "/bulk";
  w_rGen := 1;
  w_globalLoggers := []
|}.

Definition sampleWorldNotSending : World (Rand := Z) := {|
  w_dispatcher := newEventEndpointDispatcher "sdk-A" (sampleConfig false 2) "/bulk";
  w_rGen := 1;
  w_globalLoggers := []
|}.

Definition sampleRequest (schema : option string) (body : string)
    (bodyErr : option string) : Request := {|
  req_Body := body;
  req_BodyErr := bodyErr;
  req_Header :=
    match schema with
    | Some v => [("Content-Type", "application/json");
                 ("X-Launchdarkly-Event-Schema", v)]
    | None => [("Content-Type", "application/json")]
    end
|}.

(** Four requests: a schema-3 batch, a batch without schema header, a body
    that does not parse, and an empty schema-4 batch. *)
Definition sampleRequests : list Request :=
  [sampleRequest (Some "3") sampleBody None;
   sampleRequest None sampleBody None;
   sampleRequest (Some "3") "{" None;
   sampleRequest (Some "4") "[]" None].

(** A schedule for the four requests: all handlers run, then the goroutine
    of the fourth request, of the first, of the third and of the second. *)
Definition sampleChoices : list Choice :=
  [Handle; Handle; Handle; Handle; Run 3; Run 0; Run 1; Run 0].

End events.

(* ===================================================================== *)
(** * RelayCore: the invariant of the credential index                    *)
(* ===================================================================== *)

Section relay_invariant.
Import relay.

(** Projections of the two loops of Close. *)
Lemma closeEnv_loop_fields (l : list EnvContext) (r : RelayCore) :
  let r' := foldl (fun r env => closeEnv env r) r l in
  allEnvironments r' = allEnvironments r ∧
  envsByMobileKey r' = envsByMobileKey r ∧
  envsByEnvID r' = envsByEnvID r ∧
  closed r' = closed r ∧
  constructed r' = constructed r ∧
  closeCalls r' = closeCalls r ++ ((fun e => CloseEnv (env_id e)) <$> l).
Proof.
  revert r. induction l as [|e l IH]; intros r; simpl.
  - by rewrite app_nil_r.
  - destruct (IH (closeEnv e r)) as (-> & -> & -> & -> & -> & ->). simpl.
    by rewrite <- app_assoc.
Qed.

Lemma closeProviders_loop_fields (l : list StreamProvider) (r : RelayCore) :
  let r' := foldl (fun r sp => closeResource (CloseStreamProvider sp) r) r l in
  allEnvironments r' = allEnvironments r ∧
  envsByMobileKey r' = envsByMobileKey r ∧
  envsByEnvID r' = envsByEnvID r ∧
  closed r' = closed r ∧
  constructed r' = constructed r ∧
  closeCalls r' = closeCalls r ++ (CloseStreamProvider <$> l).
Proof.
  revert r. induction l as [|e l IH]; intros r; simpl.
  - by rewrite app_nil_r.
  - destruct (IH (closeResource (CloseStreamProvider e) r)) as (-> & -> & -> & -> & -> & ->).
    simpl. by rewrite <- app_assoc.
Qed.

Lemma elem_of_indexedEnvs r e :
  e ∈ indexedEnvs r ↔ ∃ k, map_index (allEnvironments r) k = Some e.
Proof.
  unfold indexedEnvs, map_index. destruct (allEnvironments r) as [g|].
  - rewrite list_elem_of_fmap. split.
    + intros ([k e'] & -> & Hin). exists k. by apply elem_of_map_to_list in Hin.
    + intros (k & Hk). exists (k, e). split; [done|]. by apply elem_of_map_to_list.
  - split; [by intros ?%elem_of_nil | by intros (k & ?)].
Qed.

(** What Close does to an open RelayCore, field by field. *)
Lemma CloseIn_open_fields visit r :
  closed r = false ->
  allEnvironments (CloseIn visit r) = None ∧
  envsByMobileKey (CloseIn visit r) = None ∧
  envsByEnvID (CloseIn visit r) = None ∧
  closed (CloseIn visit r) = true ∧
  constructed (CloseIn visit r) = constructed r ∧
  closeCalls (CloseIn visit r) =
    closeCalls r ++ [CloseMetricsManager]
      ++ ((fun e => CloseEnv (env_id e)) <$> visit)
      ++ (CloseStreamProvider <$> allStreamProviders).
Proof.
  intros Hopen. unfold CloseIn. rewrite Hopen.
  match goal with
  | |- context [foldl (fun r sp => closeResource (CloseStreamProvider sp) r) ?r0 ?l] =>
      destruct (closeProviders_loop_fields l r0) as (-> & -> & -> & -> & -> & ->)
  end.
  match goal with
  | |- context [foldl (fun r env => closeEnv env r) ?r0 ?l] =>
      destruct (closeEnv_loop_fields l r0) as (-> & -> & -> & -> & -> & ->)
  end.
  simpl. by rewrite <- !app_assoc.
Qed.

Lemma Close_CloseIn r : Close r = CloseIn (indexedEnvs r) r.
Proof. done. Qed.

Lemma Close_open_fields r :
  closed r = false ->
  allEnvironments (Close r) = None ∧
  envsByMobileKey (Close r) = None ∧
  envsByEnvID (Close r) = None ∧
  closed (Close r) = true ∧
  constructed (Close r) = constructed r ∧
  closeCalls (Close r) =
    closeCalls r ++ [CloseMetricsManager]
      ++ ((fun e => CloseEnv (env_id e)) <$> indexedEnvs r)
      ++ (CloseStreamProvider <$> allStreamProviders).
Proof. rewrite Close_CloseIn. apply CloseIn_open_fields. Qed.

Lemma CloseIn_closed visit r : closed r = true -> CloseIn visit r = r.
Proof. intros H. unfold CloseIn. by rewrite H. Qed.

Lemma Close_closed r : closed r = true -> Close r = r.
Proof. apply CloseIn_closed. Qed.

Lemma closed_Close r : closed (Close r) = true.
Proof.
  destruct (closed r) eqn:E.
  - by rewrite Close_closed.
  - by destruct (Close_open_fields r E) as (_ & _ & _ & ? & _).
Qed.

Lemma inv_newRelayCore : inv newRelayCore.
Proof.
  split; simpl.
  - intros i e H. by rewrite lookup_nil in H.
  - intros i H. by apply elem_of_nil in H.
  - intros k e H. by rewrite lookup_empty in H.
  - intros k e H. by rewrite lookup_empty in H.
  - intros k e H. by rewrite lookup_empty in H.
  - intros _. eauto.
  - done.
  - intros _ c H. by apply elem_of_nil in H.
Qed.

Lemma constructed_id_lt r e :
  inv r -> e ∈ constructed r -> (env_id e < length (constructed r))%nat.
Proof.
  intros Hinv (i & Hi)%list_elem_of_lookup.
  rewrite (inv_ids r Hinv i e Hi). by eapply lookup_lt_Some.
Qed.

Lemma constructed_id_inj r e1 e2 :
  inv r -> e1 ∈ constructed r -> e2 ∈ constructed r -> env_id e1 = env_id e2 -> e1 = e2.
Proof.
  intros Hinv (i & Hi)%list_elem_of_lookup (j & Hj)%list_elem_of_lookup Heq.
  rewrite (inv_ids r Hinv i e1 Hi), (inv_ids r Hinv j e2 Hj) in Heq. subst j.
  congruence.
Qed.

Lemma AddEnvironment_open r envName envConfig x ga gm gi :
  closed r = false ->
  allEnvironments r = Some ga ->
  envsByMobileKey r = Some gm ->
  envsByEnvID r = Some gi ->
  x_ConfigureDataStore x = None ->
  x_NewEnvContext x = None ->
  AddEnvironment r envName envConfig x =
    (AddOk (NewEnvContext r envName envConfig (makeJSClientContext envConfig) x),
     added r envName envConfig x ga gm gi).
Proof.
  intros Hc Ha Hm Hi Hd Hn. unfold AddEnvironment, added.
  rewrite Hc, Hd, Hn. cbn. rewrite Ha. cbn.
  destruct (decide (cfg_MobileKey envConfig = "")),
           (decide (cfg_EnvID envConfig = "")); cbn;
    rewrite ?Hm, ?Hi; cbn;
    unfold with_envsByEnvID, with_envsByMobileKey, with_allEnvironments, with_constructed;
    cbn; rewrite ?Hm, ?Hi, ?Hc; reflexivity.
Qed.

(** When AddEnvironment does not succeed on a well-formed RelayCore, it
    leaves the RelayCore as it was. *)
Lemma AddEnvironment_cases r envName envConfig x :
  inv r ->
  (∃ err, AddEnvironment r envName envConfig x = (AddFailed err, r)) ∨
  (∃ ga gm gi,
      closed r = false ∧
      allEnvironments r = Some ga ∧ envsByMobileKey r = Some gm ∧
      envsByEnvID r = Some gi ∧
      x_ConfigureDataStore x = None ∧ x_NewEnvContext x = None ∧
      AddEnvironment r envName envConfig x =
        (AddOk (NewEnvContext r envName envConfig (makeJSClientContext envConfig) x),
         added r envName envConfig x ga gm gi)).
Proof.
  intros Hinv.
  destruct (closed r) eqn:Hc.
  { left. exists errAlreadyClosed. unfold AddEnvironment. by rewrite Hc. }
  destruct (x_ConfigureDataStore x) as [err|] eqn:Hd.
  { left. exists (errConfigureDataStore err). unfold AddEnvironment. by rewrite Hc, Hd. }
  destruct (x_NewEnvContext x) as [err|] eqn:Hn.
  { left. exists (errNewClientContextFailed envName err).
    unfold AddEnvironment. by rewrite Hc, Hd, Hn. }
  destruct (inv_open r Hinv Hc) as ([ga Ha] & [gm Hm] & [gi Hi]).
  right. exists ga, gm, gi. repeat split; try done.
  by apply AddEnvironment_open.
Qed.

Lemma live_added r envName envConfig x ga gm gi e :
  live r e -> live (added r envName envConfig x ga gm gi) e.
Proof.
  intros [Hin Hnc]. split; simpl; [|done]. apply elem_of_app. by left.
Qed.

Lemma live_new r envName envConfig x ga gm gi :
  inv r ->
  live (added r envName envConfig x ga gm gi)
       (NewEnvContext r envName envConfig (makeJSClientContext envConfig) x).
Proof.
  intros Hinv. split; simpl.
  - apply elem_of_app. right. by apply list_elem_of_singleton.
  - intros H%(inv_closeCalls r Hinv). lia.
Qed.

Lemma inv_added r envName envConfig x ga gm gi :
  inv r ->
  closed r = false ->
  allEnvironments r = Some ga ->
  envsByMobileKey r = Some gm ->
  envsByEnvID r = Some gi ->
  inv (added r envName envConfig x ga gm gi).
Proof.
  intros Hinv Hc Ha Hm Hi.
  pose proof (live_new r envName envConfig x ga gm gi Hinv) as Hnew.
  split.
  - simpl. intros i e He. apply lookup_app_Some in He as [He|[Hge He]].
    + by apply (inv_ids r Hinv).
    + apply list_lookup_singleton_Some in He as [Hi0 <-]. simpl. lia.
  - simpl. intros i H%(inv_closeCalls r Hinv). rewrite length_app. simpl. lia.
  - intros k e. simpl. rewrite lookup_insert. case_decide as Hk.
    + intros [= <-]. subst k. split; [exact Hnew | done].
    + intros He. destruct (inv_all r Hinv k e) as [Hl Hk']; [by rewrite Ha|].
      split; [by apply live_added | done].
  - intros k e. simpl. destruct (decide (cfg_MobileKey envConfig = "")) as [He0|Hne].
    + intros He. destruct (inv_mobile r Hinv k e) as (Hl & ? & ?); [by rewrite Hm|].
      split; [by apply live_added | done].
    + rewrite lookup_insert. case_decide as Hk.
      * intros [= <-]. subst k. split; [exact Hnew | done].
      * intros He. destruct (inv_mobile r Hinv k e) as (Hl & ? & ?); [by rewrite Hm|].
        split; [by apply live_added | done].
  - intros k e. simpl. destruct (decide (cfg_EnvID envConfig = "")) as [He0|Hne].
    + intros He. destruct (inv_envID r Hinv k e) as (Hl & ? & ?); [by rewrite Hi|].
      split; [by apply live_added | done].
    + rewrite lookup_insert. case_decide as Hk.
      * intros [= <-]. subst k. split; [exact Hnew | done].
      * intros He. destruct (inv_envID r Hinv k e) as (Hl & ? & ?); [by rewrite Hi|].
        split; [by apply live_added | done].
  - simpl. eauto.
  - simpl. done.
  - simpl. intros _. by apply (inv_open_calls r Hinv).
Qed.

Lemma inv_AddEnvironment r envName envConfig x :
  inv r -> inv (snd (AddEnvironment r envName envConfig x)).
Proof.
  intros Hinv.
  destruct (AddEnvironment_cases r envName envConfig x Hinv)
    as [[err ->]|(ga & gm & gi & Hc & Ha & Hm & Hi & _ & _ & ->)]; simpl; [done|].
  by apply inv_added.
Qed.

Lemma map_index_delete {V} (m : GoMap V) (k k' : string) :
  map_index (map_delete m k) k' = if decide (k = k') then None else map_index m k'.
Proof.
  destruct m as [g|]; simpl.
  - apply lookup_delete.
  - by case_decide.
Qed.

Lemma is_Some_map_delete {V} (m : GoMap V) (k : string) :
  is_Some (map_delete m k) ↔ is_Some m.
Proof. destruct m; simpl; split; intros [? ?]; eauto; done. Qed.

Lemma RemoveEnvironment_found r sdkKey env :
  map_index (allEnvironments r) sdkKey = Some env ->
  RemoveEnvironment r sdkKey = (true, removed r sdkKey env).
Proof. intros H. unfold RemoveEnvironment. by rewrite H. Qed.

Lemma RemoveEnvironment_missing r sdkKey :
  map_index (allEnvironments r) sdkKey = None ->
  RemoveEnvironment r sdkKey = (false, r).
Proof. intros H. unfold RemoveEnvironment. by rewrite H. Qed.

(** An environment that is still live once another one has been closed. *)
Lemma live_removed r sdkKey env e :
  inv r -> live r env -> live r e -> e ≠ env -> live (removed r sdkKey env) e.
Proof.
  intros Hinv [Hin' _] [Hin Hnc] Hne. split; simpl; [done|].
  rewrite elem_of_app, list_elem_of_singleton. intros [H|[= H]]; [done|].
  apply Hne. by eapply constructed_id_inj.
Qed.

Lemma inv_removed r sdkKey env :
  inv r ->
  map_index (allEnvironments r) sdkKey = Some env ->
  inv (removed r sdkKey env).
Proof.
  intros Hinv Hfound.
  destruct (inv_all r Hinv _ _ Hfound) as [Hlive Hkey].
  split.
  - simpl. apply (inv_ids r Hinv).
  - simpl. intros i. rewrite elem_of_app, list_elem_of_singleton.
    intros [H|[= ->]]; [by apply (inv_closeCalls r Hinv)|].
    destruct Hlive as [Hin _]. by eapply constructed_id_lt.
  - intros k e. simpl. rewrite map_index_delete. case_decide as Hk; [done|].
    intros He. destruct (inv_all r Hinv k e He) as [Hl Hk'].
    split; [|done]. apply live_removed; try done. intros ->. congruence.
  - intros k e. simpl. rewrite map_index_delete. case_decide as Hk; [done|].
    intros He. destruct (inv_mobile r Hinv k e He) as (Hl & Hk0 & Hk').
    split; [|done]. apply live_removed; try done. intros ->. congruence.
  - intros k e. simpl. rewrite map_index_delete. case_decide as Hk; [done|].
    intros He. destruct (inv_envID r Hinv k e He) as (Hl & Hk0 & Hk').
    split; [|done]. apply live_removed; try done. intros ->. congruence.
  - simpl. intros Hc. rewrite !is_Some_map_delete. by apply (inv_open r Hinv).
  - simpl. intros Hc. destruct (inv_shut r Hinv Hc) as (-> & -> & ->). done.
  - simpl. intros Hc c. rewrite elem_of_app, list_elem_of_singleton.
    intros [H| ->]; [by apply (inv_open_calls r Hinv Hc) | eauto].
Qed.

Lemma inv_RemoveEnvironment r sdkKey :
  inv r -> inv (snd (RemoveEnvironment r sdkKey)).
Proof.
  intros Hinv. destruct (map_index (allEnvironments r) sdkKey) as [env|] eqn:E.
  - rewrite (RemoveEnvironment_found _ _ _ E). by apply inv_removed.
  - by rewrite (RemoveEnvironment_missing _ _ E).
Qed.

Lemma inv_Close r : inv r -> inv (Close r).
Proof.
  intros Hinv. destruct (closed r) eqn:Hc; [by rewrite Close_closed|].
  destruct (Close_open_fields r Hc) as (Ha & Hm & Hi & Hcl & Hco & Hcc).
  split.
  - rewrite Hco. apply (inv_ids r Hinv).
  - rewrite Hco, Hcc. intros i.
    rewrite !elem_of_app, list_elem_of_singleton, !list_elem_of_fmap.
    intros [H|[H|[(e & [= ->] & He)|(sp & H & _)]]]; try done.
    + by apply (inv_closeCalls r Hinv).
    + apply elem_of_indexedEnvs in He as (k & Hk).
      destruct (inv_all r Hinv k e Hk) as [[Hin _] _]. by eapply constructed_id_lt.
  - rewrite Ha. done.
  - rewrite Hm. done.
  - rewrite Hi. done.
  - rewrite Hcl. done.
  - done.
  - rewrite Hcl. done.
Qed.

Lemma inv_call r c : inv r -> inv (call r c).
Proof.
  destruct c; simpl.
  - apply inv_AddEnvironment.
  - apply inv_RemoveEnvironment.
  - apply inv_Close.
Qed.

Lemma reachable_inv r : reachable r -> inv r.
Proof.
  induction 1 as [|r c _ IH]; [apply inv_newRelayCore | by apply inv_call].
Qed.

Lemma reachable_run r calls : reachable r -> reachable (run r calls).
Proof.
  revert r. induction calls as [|c calls IH]; intros r Hr; simpl; [done|].
  apply IH. by constructor.
Qed.

End relay_invariant.

(* ===================================================================== *)
(** * RelayCore: lookup, add, remove, close                               *)
(* ===================================================================== *)

Section relay_properties.
Import relay.

Lemma closed_call r c : closed r = true -> closed (call r c) = true.
Proof.
  intros Hc. destruct c as [envName envConfig x|sdkKey|]; simpl.
  - unfold AddEnvironment. by rewrite Hc.
  - unfold RemoveEnvironment.
    by destruct (map_index (allEnvironments r) sdkKey).
  - apply closed_Close.
Qed.

Lemma closed_run r calls : closed r = true -> closed (run r calls) = true.
Proof.
  revert r. induction calls as [|c calls IH]; intros r Hc; simpl; [done|].
  by apply IH, closed_call.
Qed.

Lemma not_live_removed r sdkKey env : ¬ live (removed r sdkKey env) env.
Proof.
  intros [_ Hnc]. apply Hnc. simpl. apply elem_of_app. right.
  by apply list_elem_of_singleton.
Qed.

(** In a reachable state every index entry leads to a live environment that
    owns the credential. *)
Lemma GetEnvironment_live_belongs r credential env :
  inv r -> GetEnvironment r credential = Some env ->
  live r env ∧ belongs credential env.
Proof.
  intros Hinv. destruct credential as [k|k|k|k]; simpl; intros H.
  - by apply (inv_all r Hinv).
  - by destruct (inv_mobile r Hinv k env H) as (? & ? & ?).
  - by destruct (inv_envID r Hinv k env H) as (? & ? & ?).
  - done.
Qed.

(** ** The index under distinct credentials

    When environments never share a credential, every live environment is
    found under each of its credentials, in every state. *)
Lemma reachable_distinct_reachable r : reachable_distinct r -> reachable r.
Proof. induction 1; try apply reachable_new; by apply reachable_call. Qed.

Lemma live_removed_inv r sdkKey env e :
  live (removed r sdkKey env) e -> live r e ∧ e ≠ env.
Proof.
  intros [Hin Hnc]. simpl in Hin, Hnc.
  rewrite elem_of_app, list_elem_of_singleton in Hnc.
  split; [split; [done|tauto]|]. intros ->. tauto.
Qed.

(** X1.  When no environment is ever added with a credential of an
    environment that is live at that moment, then in every state reached
    each live environment is found by GetEnvironment under each of its
    credentials: its server key, its mobile key if set, its environment ID
    if set. *)
Lemma distinct_lookup r :
  reachable_distinct r ->
  ∀ env credential,
    live r env -> belongs credential env -> GetEnvironment r credential = Some env.
Proof.
  induction 1 as [|r envName envConfig x Hr IH Hfresh|r sdkKey Hr IH|r Hr IH].
  - intros env credential [Hin _]. by apply elem_of_nil in Hin.
  - pose proof (reachable_inv r (reachable_distinct_reachable r Hr)) as Hinv.
    simpl.
    destruct (AddEnvironment_cases r envName envConfig x Hinv)
      as [[err ->]|(ga & gm & gi & Hc & Ha & Hm & Hi & _ & _ & ->)]; [exact IH|].
    simpl. intros env credential [Hin Hnc] Hb. simpl in Hin, Hnc.
    apply elem_of_app in Hin as [Hin|Hin].
    2: apply list_elem_of_singleton in Hin; subst env.
    + assert (Hl : live r env) by done.
      pose proof (IH env credential Hl Hb) as Hget.
      destruct credential as [k|k|k|k]; simpl in *; try done.
      * rewrite Ha in Hget. rewrite lookup_insert_ne; [done|].
        intros Hk. apply (Hfresh env Hl). left. simpl. congruence.
      * rewrite Hm in Hget. case_decide; [done|].
        rewrite lookup_insert_ne; [done|].
        intros Hk. apply (Hfresh env Hl). right; left. simpl.
        destruct Hb as [Hk0 Hkb]. split; congruence.
      * rewrite Hi in Hget. case_decide; [done|].
        rewrite lookup_insert_ne; [done|].
        intros Hk. apply (Hfresh env Hl). right; right. simpl.
        destruct Hb as [Hk0 Hkb]. split; congruence.
    + destruct credential as [k|k|k|k]; simpl in *; try done.
      * subst k. apply lookup_insert_eq.
      * destruct Hb as [Hk0 <-]. rewrite decide_False by done. apply lookup_insert_eq.
      * destruct Hb as [Hk0 <-]. rewrite decide_False by done. apply lookup_insert_eq.
  - pose proof (reachable_inv r (reachable_distinct_reachable r Hr)) as Hinv.
    simpl.
    destruct (map_index (allEnvironments r) sdkKey) as [env0|] eqn:Hfound.
    2:{ by rewrite (RemoveEnvironment_missing _ _ Hfound). }
    rewrite (RemoveEnvironment_found _ _ _ Hfound). simpl.
    destruct (inv_all r Hinv _ _ Hfound) as [Hlive0 Hkey0].
    intros env credential [Hl Hne]%live_removed_inv Hb.
    pose proof (IH env credential Hl Hb) as Hget.
    destruct credential as [k|k|k|k]; simpl in *; try done.
    + rewrite map_index_delete. case_decide as Hk; [|done].
      subst k. congruence.
    + rewrite map_index_delete. case_decide as Hk; [|done].
      subst k. destruct Hb as [Hk0 _].
      pose proof (IH env0 (MobileKey _) Hlive0 (conj Hk0 eq_refl)) as Hget0.
      simpl in Hget0. congruence.
    + rewrite map_index_delete. case_decide as Hk; [|done].
      subst k. destruct Hb as [Hk0 _].
      pose proof (IH env0 (EnvironmentID _) Hlive0 (conj Hk0 eq_refl)) as Hget0.
      simpl in Hget0. congruence.
  - simpl. destruct (closed r) eqn:Hc; [by rewrite Close_closed|].
    destruct (Close_open_fields r Hc) as (_ & _ & _ & _ & Hco & Hcc).
    intros env credential [Hin Hnc] Hb. exfalso. apply Hnc.
    rewrite Hco in Hin. rewrite Hcc, !elem_of_app in Hnc.
    assert (Hl : live r env) by (split; [done|tauto]).
    pose proof (IH env (SDKKey _) Hl eq_refl) as Hget.
    rewrite Hcc, !elem_of_app. right; right; left.
    apply list_elem_of_fmap. exists env. split; [done|].
    apply elem_of_indexedEnvs. eauto.
Qed.

(** ** C1 *)

(** A call that does not touch a credential leaves its lookup as it was. *)
Lemma GetEnvironment_call_untouched r c credential :
  inv r -> ¬ touches r c credential ->
  GetEnvironment (call r c) credential = GetEnvironment r credential.
Proof.
  intros Hinv Hnt. destruct c as [envName envConfig x|sdkKey|]; simpl in *.
  - destruct (AddEnvironment_cases r envName envConfig x Hinv)
      as [[err ->]|(ga & gm & gi & _ & Ha & Hm & Hi & _ & _ & ->)]; [done|].
    destruct credential as [k|k|k|k]; simpl; rewrite ?Ha, ?Hm, ?Hi; simpl; try done.
    + by apply lookup_insert_ne.
    + case_decide; [done|]. by apply lookup_insert_ne.
    + case_decide; [done|]. by apply lookup_insert_ne.
  - destruct (map_index (allEnvironments r) sdkKey) as [env|] eqn:Hfound.
    + rewrite (RemoveEnvironment_found _ _ _ Hfound).
      destruct credential as [k|k|k|k]; simpl; try done;
        rewrite map_index_delete; by rewrite decide_False.
    + by rewrite (RemoveEnvironment_missing _ _ Hfound).
  - done.
Qed.

Lemma GetEnvironment_run_untouched r calls credential :
  inv r -> untouched r calls credential ->
  GetEnvironment (run r calls) credential = GetEnvironment r credential.
Proof.
  revert r. induction calls as [|c calls IH]; intros r Hinv Hu; [done|].
  destruct Hu as [Hnt Hu].
  change (run r (c :: calls)) with (run (call r c) calls).
  rewrite IH; [by apply GetEnvironment_call_untouched | by apply inv_call | done].
Qed.

(** C1 (as amended). Add-then-lookup.  In every reachable state of a
    RelayCore: when AddEnvironment succeeds it returns a newly constructed
    EnvContext carrying the configured name and credentials, and in the
    state it leaves GetEnvironment of the server key, of the mobile key
    (when set) and of the environment ID (when set) all return that very
    EnvContext; each of these lookups keeps returning it after any
    sequence of calls none of which touches the credential, that is, until
    an environment is added with that credential, an environment holding
    it is removed, or the RelayCore is closed.  And GetEnvironment of a
    credential that belongs to no live environment (constructed and not
    closed) returns nil. *)
Theorem GetEnvironment_AddEnvironment (r : RelayCore) :
  reachable r ->
  (∀ envName envConfig x clientContext r',
      AddEnvironment r envName envConfig x = (AddOk clientContext, r') ->
      (clientContext ∉ constructed r) ∧
      live r' clientContext ∧
      env_name clientContext = envName ∧
      env_credentials clientContext =
        {| cred_SDKKey := cfg_SDKKey envConfig;
           cred_MobileKey := cfg_MobileKey envConfig;
           cred_EnvironmentID := cfg_EnvID envConfig |} ∧
      GetEnvironment r' (SDKKey (cfg_SDKKey envConfig)) = Some clientContext ∧
      (cfg_MobileKey envConfig ≠ "" ->
       GetEnvironment r' (MobileKey (cfg_MobileKey envConfig)) = Some clientContext) ∧
      (cfg_EnvID envConfig ≠ "" ->
       GetEnvironment r' (EnvironmentID (cfg_EnvID envConfig)) = Some clientContext) ∧
      (∀ credential calls,
          belongs credential clientContext ->
          untouched r' calls credential ->
          GetEnvironment (run r' calls) credential = Some clientContext)) ∧
  (∀ credential,
      (∀ env, live r env -> ¬ belongs credential env) ->
      GetEnvironment r credential = None).
Proof.
  intros Hr. pose proof (reachable_inv r Hr) as Hinv. split.
  - intros envName envConfig x clientContext r' Hadd.
    pose proof (inv_call r (CallAdd envName envConfig x) Hinv) as Hinv'.
    simpl in Hinv'. rewrite Hadd in Hinv'. simpl in Hinv'.
    destruct (AddEnvironment_cases r envName envConfig x Hinv)
      as [[err Hf]|(ga & gm & gi & Hc & Ha & Hm & Hi & _ & _ & Hok)];
      [congruence|].
    rewrite Hok in Hadd. injection Hadd as <- <-.
    split_and!.
    + intros Hin. apply (constructed_id_lt r _ Hinv) in Hin. simpl in Hin. lia.
    + by apply live_new.
    + done.
    + done.
    + simpl. apply lookup_insert_eq.
    + intros Hne. simpl. rewrite decide_False by done. apply lookup_insert_eq.
    + intros Hne. simpl. rewrite decide_False by done. apply lookup_insert_eq.
    + intros credential calls Hb Hu.
      rewrite (GetEnvironment_run_untouched _ _ _ Hinv' Hu).
      destruct credential as [k|k|k|k]; simpl in Hb |- *.
      * subst k. apply lookup_insert_eq.
      * destruct Hb as [Hne <-]. rewrite decide_False by done. apply lookup_insert_eq.
      * destruct Hb as [Hne <-]. rewrite decide_False by done. apply lookup_insert_eq.
      * done.
  - intros credential Hnone.
    destruct (GetEnvironment r credential) as [env|] eqn:E; [|done].
    destruct (GetEnvironment_live_belongs r credential env Hinv E) as [Hl Hb].
    by destruct (Hnone env Hl).
Qed.

(** ** C2 *)

(** C2 (as amended).  AddEnvironment makes no duplicate check.  In a
    reachable state where the server key of the new configuration is already
    indexed, and the data store and the environment can be constructed, the
    add succeeds: it returns a new EnvContext, different from the indexed
    one, which replaces it under that server key and leaves the other
    server keys as they were; the replaced EnvContext is not closed, so two
    live EnvContexts then carry the same server key while the index holds
    one.  And whenever AddEnvironment fails, the error is AlreadyClosed, a
    data-store configuration error or a failed construction of the
    environment, and the RelayCore is unchanged. *)
Theorem AddEnvironment_existing_server_key (r : RelayCore) envName envConfig x :
  reachable r ->
  (∀ old,
      GetEnvironment r (SDKKey (cfg_SDKKey envConfig)) = Some old ->
      x_ConfigureDataStore x = None ->
      x_NewEnvContext x = None ->
      ∃ clientContext r',
        AddEnvironment r envName envConfig x = (AddOk clientContext, r') ∧
        clientContext ≠ old ∧
        GetEnvironment r' (SDKKey (cfg_SDKKey envConfig)) = Some clientContext ∧
        (∀ k, k ≠ cfg_SDKKey envConfig ->
              GetEnvironment r' (SDKKey k) = GetEnvironment r (SDKKey k)) ∧
        live r' old ∧ live r' clientContext ∧
        cred_SDKKey (env_credentials old) = cred_SDKKey (env_credentials clientContext)) ∧
  (∀ err r',
      AddEnvironment r envName envConfig x = (AddFailed err, r') ->
      r' = r ∧
      (err = errAlreadyClosed ∨
       (∃ e, err = errConfigureDataStore e) ∨
       (∃ e, err = errNewClientContextFailed envName e))).
Proof.
  intros Hr. pose proof (reachable_inv r Hr) as Hinv. split.
  - intros old Hold Hd Hn.
    destruct (AddEnvironment_cases r envName envConfig x Hinv)
      as [[err Hf]|(ga & gm & gi & Hc & Ha & Hm & Hi & _ & _ & Hok)].
    { exfalso. revert Hf. unfold AddEnvironment.
      destruct (closed r) eqn:Hc.
      - simpl in Hold. destruct (inv_shut r Hinv Hc) as (Ha & _).
        by rewrite Ha in Hold.
      - rewrite Hd, Hn. simpl. repeat case_match; congruence. }
    destruct (inv_all r Hinv _ _ Hold) as [Hlive Hkey].
    eexists _, _. split; [exact Hok|]. split_and!.
    + intros <-. destruct Hlive as [Hin _].
      apply (constructed_id_lt r _ Hinv) in Hin. simpl in Hin. lia.
    + simpl. apply lookup_insert_eq.
    + intros k Hk. simpl. rewrite Ha. simpl. by apply lookup_insert_ne.
    + by apply live_added.
    + by apply live_new.
    + by rewrite Hkey.
  - intros err r'. unfold AddEnvironment.
    destruct (closed r); [intros [= <- <-]; eauto|].
    destruct (x_ConfigureDataStore x); [intros [= <- <-]; eauto|].
    destruct (x_NewEnvContext x); [intros [= <- <-]; eauto 6|].
    repeat case_match; congruence.
Qed.

(** ** C3 *)

(** C3 (as amended).  In every reachable state and for every server key k:
    if the server-key index holds an environment under k (that environment
    is then live and has server key k), RemoveEnvironment(k) returns true, calls Close on that
    EnvContext (once, and on nothing else) and leaves a state in which no
    index entry leads to it, so that GetEnvironment of each of its
    credentials returns nil; if the index holds nothing under k,
    RemoveEnvironment(k) returns false and the RelayCore is unchanged. *)
Theorem RemoveEnvironment_spec (r : RelayCore) (sdkKey : string) :
  reachable r ->
  (∀ env,
      GetEnvironment r (SDKKey sdkKey) = Some env ->
      ∃ r',
        RemoveEnvironment r sdkKey = (true, r') ∧
        live r env ∧ cred_SDKKey (env_credentials env) = sdkKey ∧
        closeCalls r' = closeCalls r ++ [CloseEnv (env_id env)] ∧
        GetEnvironment r' (SDKKey sdkKey) = None ∧
        GetEnvironment r' (MobileKey (cred_MobileKey (env_credentials env))) = None ∧
        GetEnvironment r' (EnvironmentID (cred_EnvironmentID (env_credentials env))) = None ∧
        (∀ credential, belongs credential env -> GetEnvironment r' credential = None) ∧
        (∀ credential, GetEnvironment r' credential ≠ Some env)) ∧
  (GetEnvironment r (SDKKey sdkKey) = None ->
   RemoveEnvironment r sdkKey = (false, r)).
Proof.
  intros Hr. pose proof (reachable_inv r Hr) as Hinv. split.
  - intros env Hfound. simpl in Hfound.
    destruct (inv_all r Hinv _ _ Hfound) as [Hlive Hkey].
    exists (removed r sdkKey env).
    assert (Hsdk : GetEnvironment (removed r sdkKey env) (SDKKey sdkKey) = None).
    { simpl. rewrite map_index_delete. by rewrite decide_True. }
    assert (Hmob : GetEnvironment (removed r sdkKey env)
                     (MobileKey (cred_MobileKey (env_credentials env))) = None).
    { simpl. rewrite map_index_delete. by rewrite decide_True. }
    assert (Hid : GetEnvironment (removed r sdkKey env)
                    (EnvironmentID (cred_EnvironmentID (env_credentials env))) = None).
    { simpl. rewrite map_index_delete. by rewrite decide_True. }
    split_and!; try done.
    + by apply RemoveEnvironment_found.
    + intros [k|k|k|k]; simpl belongs.
      * intros <-. by rewrite Hkey.
      * by intros [_ <-].
      * by intros [_ <-].
      * done.
    + intros credential Hget.
      pose proof (inv_removed r sdkKey env Hinv Hfound) as Hinv'.
      destruct (GetEnvironment_live_belongs _ _ _ Hinv' Hget) as [Hl _].
      by apply (not_live_removed r sdkKey env).
  - intros Hnone. by apply RemoveEnvironment_missing.
Qed.

(** ** C4 *)

(** C4.  Once Close has been called on a RelayCore, then after any further
    sequence of calls AddEnvironment returns the AlreadyClosed error and
    leaves the RelayCore exactly as it was: no environment is constructed
    and no index entry is added. *)
Theorem AddEnvironment_after_Close (r : RelayCore) (calls : list Call)
    envName envConfig x :
  AddEnvironment (run (Close r) calls) envName envConfig x =
    (AddFailed errAlreadyClosed, run (Close r) calls).
Proof.
  unfold AddEnvironment.
  by rewrite (closed_run (Close r) calls (closed_Close r)).
Qed.

(** ** C5 *)

Lemma count_occ_zero (l : list Closeable) (c : Closeable) :
  c ∉ l -> count_occ Closeable_eq_dec l c = 0%nat.
Proof. intros H. apply count_occ_not_In. by rewrite <- list_elem_of_In. Qed.

Lemma count_occ_one (l : list Closeable) (c : Closeable) :
  NoDup l -> c ∈ l -> count_occ Closeable_eq_dec l c = 1%nat.
Proof.
  intros Hnd%NoDup_ListNoDup Hin%list_elem_of_In.
  by apply (proj1 (NoDup_count_occ' Closeable_eq_dec l) Hnd).
Qed.

(** The server-key map holds each of its environments once. *)
Lemma NoDup_indexedEnvs r :
  inv r -> NoDup ((fun e => CloseEnv (env_id e)) <$> indexedEnvs r).
Proof.
  intros Hinv. unfold indexedEnvs.
  destruct (allEnvironments r) as [g|] eqn:Hg; [|constructor].
  rewrite <- list_fmap_compose.
  apply NoDup_fmap_2_strong; [|apply NoDup_map_to_list].
  intros [k1 e1] [k2 e2] H1%elem_of_map_to_list H2%elem_of_map_to_list [= Hid].
  destruct (inv_all r Hinv k1 e1) as [[Hin1 _] Hk1]; [by rewrite Hg|].
  destruct (inv_all r Hinv k2 e2) as [[Hin2 _] Hk2]; [by rewrite Hg|].
  assert (e1 = e2) as -> by by eapply constructed_id_inj.
  congruence.
Qed.

(** C5 (as amended).  Close is idempotent.  On a reachable RelayCore that
    is not closed, the first Close marks it closed, sets the three
    credential maps to nil, and calls Close on the metrics manager, then on
    every EnvContext that the server-key map holds, in whatever order the
    loop comes to them, then on the four stream providers: afterwards each
    of these resources has been closed exactly once, and a live EnvContext
    that the server-key map does not hold has not been closed.  A second
    Close, and any Close of a closed RelayCore, returns at once and changes
    nothing, so no resource is closed a second time. *)
Theorem Close_idempotent (r : RelayCore) :
  reachable r ->
  (closed r = false ->
   ∀ visit, visit ≡ₚ indexedEnvs r ->
   closed (CloseIn visit r) = true ∧
   allEnvironments (CloseIn visit r) = None ∧
   envsByMobileKey (CloseIn visit r) = None ∧
   envsByEnvID (CloseIn visit r) = None ∧
   closeCalls (CloseIn visit r) =
     closeCalls r ++ [CloseMetricsManager]
       ++ ((fun e => CloseEnv (env_id e)) <$> visit)
       ++ (CloseStreamProvider <$> allStreamProviders) ∧
   closeCount (CloseIn visit r) CloseMetricsManager = 1%nat ∧
   (∀ sp, closeCount (CloseIn visit r) (CloseStreamProvider sp) = 1%nat) ∧
   (∀ k env, GetEnvironment r (SDKKey k) = Some env ->
             closeCount (CloseIn visit r) (CloseEnv (env_id env)) = 1%nat) ∧
   (∀ env, live r env ->
           (∀ k, GetEnvironment r (SDKKey k) ≠ Some env) ->
           closeCount (CloseIn visit r) (CloseEnv (env_id env)) = 0%nat) ∧
   (∀ visit', CloseIn visit' (CloseIn visit r) = CloseIn visit r) ∧
   Close (CloseIn visit r) = CloseIn visit r) ∧
  Close r = CloseIn (indexedEnvs r) r ∧
  Close (Close r) = Close r ∧
  (closed r = true -> Close r = r ∧ ∀ visit, CloseIn visit r = r).
Proof.
  intros Hr. pose proof (reachable_inv r Hr) as Hinv.
  split; [|split; [done|split; [apply Close_closed, closed_Close|]]].
  2:{ intros Hc. split; [by apply Close_closed|]. intros visit. by apply CloseIn_closed. }
  intros Hc visit Hvisit.
  destruct (CloseIn_open_fields visit r Hc) as (Ha & Hm & Hi & Hcl & Hco & Hcc).
  pose proof (inv_open_calls r Hinv Hc) as Hold.
  assert (Hnd : NoDup ((fun e => CloseEnv (env_id e)) <$> visit)).
  { rewrite Hvisit. by apply NoDup_indexedEnvs. }
  split_and!; try done.
  - unfold closeCount. rewrite Hcc, !count_occ_app.
    rewrite (count_occ_zero (closeCalls r)).
    2:{ intros [i Hi']%Hold. done. }
    rewrite (count_occ_zero (_ <$> visit)).
    2:{ intros (e & He & _)%list_elem_of_fmap. done. }
    rewrite (count_occ_zero (_ <$> allStreamProviders)).
    2:{ intros (e & He & _)%list_elem_of_fmap. done. }
    reflexivity.
  - intros sp. unfold closeCount. rewrite Hcc, !count_occ_app.
    rewrite (count_occ_zero (closeCalls r)).
    2:{ intros [i Hi']%Hold. done. }
    rewrite (count_occ_zero (_ <$> visit)).
    2:{ intros (e & He & _)%list_elem_of_fmap. done. }
    by destruct sp.
  - intros k env Hget. unfold closeCount. rewrite Hcc, !count_occ_app.
    destruct (inv_all r Hinv k env Hget) as [[_ Hnc] _].
    rewrite (count_occ_zero (closeCalls r)) by done.
    rewrite (count_occ_zero (_ <$> allStreamProviders)).
    2:{ intros (e & He & _)%list_elem_of_fmap. done. }
    rewrite (count_occ_one (_ <$> visit)).
    + reflexivity.
    + done.
    + apply list_elem_of_fmap. exists env. split; [done|].
      rewrite Hvisit. apply elem_of_indexedEnvs. by exists k.
  - intros env [Hin Hnc] Hnot. unfold closeCount. rewrite Hcc, !count_occ_app.
    rewrite (count_occ_zero (closeCalls r)) by done.
    rewrite (count_occ_zero (_ <$> allStreamProviders)).
    2:{ intros (e & He & _)%list_elem_of_fmap. done. }
    rewrite (count_occ_zero (_ <$> visit)); [done|].
    intros (e & [= Hid] & He)%list_elem_of_fmap.
    rewrite Hvisit in He. apply elem_of_indexedEnvs in He as (k & Hk).
    destruct (inv_all r Hinv k e Hk) as [[Hine _] _].
    assert (env = e) as -> by by eapply constructed_id_inj.
    by apply (Hnot k).
  - intros visit'. by apply CloseIn_closed.
  - by apply Close_closed.
Qed.

(** ** C6 *)

Lemma receiveReports_spec (n : nat) (reports : list InitReport) (failed : bool) :
  receiveReports n reports failed =
    if decide (n <= length reports)%nat
    then Some (failed || existsb initFailed (take n reports))
    else None.
Proof.
  revert reports failed. induction n as [|n IH]; intros reports failed.
  - rewrite decide_True by lia. simpl. by rewrite orb_false_r.
  - destruct reports as [|ctx reports].
    + rewrite decide_False by (simpl; lia). done.
    + simpl receiveReports. rewrite IH.
      destruct (decide (n <= length reports)%nat).
      * rewrite decide_True by (simpl; lia). simpl.
        by destruct (initFailed ctx), failed.
      * rewrite decide_False by (simpl; lia). done.
Qed.


(** ** The statements above at the sample environment *)

Lemma reachable_sampleCore : reachable sampleCore.
Proof. apply reachable_call, reachable_new. Qed.

Lemma reachable_sampleCoreAZ : reachable sampleCoreAZ.
Proof. apply reachable_call, reachable_sampleCore. Qed.

Lemma reachable_sampleCoreAC : reachable sampleCoreAC.
Proof. apply reachable_call, reachable_sampleCore. Qed.

Lemma GetEnvironment_AddEnvironment_witness :
  reachable newRelayCore ∧
  AddEnvironment newRelayCore "env A" sampleEnvConfig succeeding =
    (AddOk sampleEnvContext, sampleCore) ∧
  GetEnvironment sampleCore (SDKKey "sdk-A") = Some sampleEnvContext ∧
  GetEnvironment sampleCore (MobileKey "mob-A") = Some sampleEnvContext ∧
  GetEnvironment sampleCore (EnvironmentID "env-A") = Some sampleEnvContext ∧
  untouched sampleCore
    [CallAdd "env C" sampleEnvConfigC succeeding; CallRemove "sdk-C"]
    (MobileKey "mob-A") ∧
  GetEnvironment
    (run sampleCore [CallAdd "env C" sampleEnvConfigC succeeding; CallRemove "sdk-C"])
    (MobileKey "mob-A") = Some sampleEnvContext ∧
  GetEnvironment sampleCore (SDKKey "sdk-X") = None.
Proof.
  assert (Hadd : AddEnvironment newRelayCore "env A" sampleEnvConfig succeeding =
                   (AddOk sampleEnvContext, sampleCore)) by reflexivity.
  assert (Hu : untouched sampleCore
                 [CallAdd "env C" sampleEnvConfigC succeeding; CallRemove "sdk-C"]
                 (MobileKey "mob-A")).
  { split; [discriminate|]. split; [|done]. vm_compute. discriminate. }
  split; [apply reachable_new|]. split; [exact Hadd|].
  destruct (GetEnvironment_AddEnvironment newRelayCore reachable_new) as [Hget _].
  destruct (Hget _ _ _ _ _ Hadd) as (_ & _ & _ & _ & Hs & Hm & Hi & Hkeep).
  split; [exact Hs|]. split; [by apply Hm|]. split; [by apply Hi|].
  split; [exact Hu|].
  split; [apply Hkeep; [by split | exact Hu]|].
  destruct (GetEnvironment_AddEnvironment sampleCore reachable_sampleCore) as [_ Hnil].
  apply Hnil. intros env [Hin _] Hb.
  apply list_elem_of_singleton in Hin. subst env. discriminate Hb.
Defined.

(** C1, as stated, fails: the first environment is live and was added with
    the mobile key mob-A, yet once a second environment has been added with
    the same mobile key GetEnvironment of mob-A returns the second, and
    once the second has been removed it returns nil. *)
Lemma GetEnvironment_live_credential_lost :
  AddEnvironment newRelayCore "env A" sampleEnvConfig succeeding =
    (AddOk sampleEnvContext, sampleCore) ∧
  cfg_MobileKey sampleEnvConfig = "mob-A" ∧
  reachable sampleCoreAB ∧
  live sampleCoreAB sampleEnvContext ∧
  belongs (MobileKey "mob-A") sampleEnvContext ∧
  GetEnvironment sampleCoreAB (MobileKey "mob-A") = Some sampleEnvContextB ∧
  sampleEnvContextB ≠ sampleEnvContext ∧
  live (call sampleCoreAB (CallRemove "sdk-B")) sampleEnvContext ∧
  GetEnvironment (call sampleCoreAB (CallRemove "sdk-B")) (MobileKey "mob-A") = None.
Proof.
  split; [reflexivity|]. split; [reflexivity|].
  split; [apply reachable_call, reachable_sampleCore|].
  split.
  { split; [apply list_elem_of_here | apply not_elem_of_nil]. }
  split; [by split|]. split; [reflexivity|]. split; [discriminate|].
  split; [|reflexivity].
  split; [apply list_elem_of_here|].
  intros Hin. apply list_elem_of_singleton in Hin. discriminate Hin.
Qed.

(** C2, as stated, fails: adding a second environment under the server key
    of an indexed one is not rejected; it succeeds and the index entry of
    that key changes to the new EnvContext. *)
Lemma AddEnvironment_duplicate_not_rejected :
  GetEnvironment sampleCore (SDKKey "sdk-A") = Some sampleEnvContext ∧
  ∃ clientContext r',
    AddEnvironment sampleCore "env B" sampleEnvConfig succeeding =
      (AddOk clientContext, r') ∧
    GetEnvironment r' (SDKKey "sdk-A") = Some clientContext ∧
    clientContext ≠ sampleEnvContext.
Proof.
  split; [reflexivity|]. eexists _, _.
  split; [reflexivity|]. split; [reflexivity|]. discriminate.
Qed.

Lemma AddEnvironment_existing_server_key_witness :
  reachable sampleCore ∧
  GetEnvironment sampleCore (SDKKey "sdk-A") = Some sampleEnvContext ∧
  ∃ clientContext r',
    AddEnvironment sampleCore "env B" sampleEnvConfig succeeding =
      (AddOk clientContext, r') ∧
    clientContext ≠ sampleEnvContext ∧
    GetEnvironment r' (SDKKey "sdk-A") = Some clientContext ∧
    live r' sampleEnvContext ∧ live r' clientContext.
Proof.
  split; [apply reachable_sampleCore|]. split; [reflexivity|].
  destruct (AddEnvironment_existing_server_key sampleCore "env B" sampleEnvConfig
              succeeding reachable_sampleCore) as [Hadd _].
  destruct (Hadd sampleEnvContext eq_refl eq_refl eq_refl)
    as (clientContext & r' & H1 & H2 & H3 & _ & H5 & H6 & _).
  exists clientContext, r'. done.
Defined.

Lemma RemoveEnvironment_spec_witness :
  reachable sampleCore ∧
  (∃ r',
      RemoveEnvironment sampleCore "sdk-A" = (true, r') ∧
      closeCalls r' = [CloseEnv 0] ∧
      GetEnvironment r' (SDKKey "sdk-A") = None ∧
      GetEnvironment r' (MobileKey "mob-A") = None ∧
      GetEnvironment r' (EnvironmentID "env-A") = None) ∧
  RemoveEnvironment sampleCore "sdk-X" = (false, sampleCore).
Proof.
  split; [apply reachable_sampleCore|].
  destruct (RemoveEnvironment_spec sampleCore "sdk-A" reachable_sampleCore) as [Hfound _].
  destruct (RemoveEnvironment_spec sampleCore "sdk-X" reachable_sampleCore) as [_ Hmissing].
  split; [|by apply Hmissing].
  destruct (Hfound sampleEnvContext eq_refl) as (r' & H1 & _ & _ & H2 & H3 & H4 & H5 & _).
  exists r'. done.
Defined.

(** C3, as stated, fails: after a second environment has been added under
    the server key sdk-A and RemoveEnvironment(sdk-A) has removed it, the
    first environment is live, has the server key sdk-A and is still found
    under its mobile key, yet RemoveEnvironment(sdk-A) returns false,
    changes nothing and does not close it. *)
Lemma RemoveEnvironment_live_not_indexed :
  let r := call sampleCoreAZ (CallRemove "sdk-A") in
  reachable r ∧
  live r sampleEnvContext ∧
  cred_SDKKey (env_credentials sampleEnvContext) = "sdk-A" ∧
  GetEnvironment r (MobileKey "mob-A") = Some sampleEnvContext ∧
  RemoveEnvironment r "sdk-A" = (false, r) ∧
  closeCount (snd (RemoveEnvironment r "sdk-A")) (CloseEnv (env_id sampleEnvContext))
    = 0%nat.
Proof.
  intros r. split; [apply reachable_call, reachable_sampleCoreAZ|].
  split.
  { split; [apply list_elem_of_here|].
    intros Hin. apply list_elem_of_singleton in Hin. discriminate Hin. }
  repeat split; reflexivity.
Qed.

Lemma Close_idempotent_witness :
  reachable sampleCoreAC ∧ closed sampleCoreAC = false ∧
  [sampleEnvContextC; sampleEnvContext] ≡ₚ indexedEnvs sampleCoreAC ∧
  closed (CloseIn [sampleEnvContextC; sampleEnvContext] sampleCoreAC) = true ∧
  GetEnvironment (CloseIn [sampleEnvContextC; sampleEnvContext] sampleCoreAC)
    (SDKKey "sdk-A") = None ∧
  closeCalls (CloseIn [sampleEnvContextC; sampleEnvContext] sampleCoreAC) =
    [CloseMetricsManager; CloseEnv 1; CloseEnv 0;
     CloseStreamProvider serverSideStreamProvider;
     CloseStreamProvider serverSideFlagsStreamProvider;
     CloseStreamProvider mobileStreamProvider;
     CloseStreamProvider jsClientStreamProvider] ∧
  closeCount (CloseIn [sampleEnvContextC; sampleEnvContext] sampleCoreAC)
    (CloseEnv 0) = 1%nat ∧
  Close (Close sampleCoreAC) = Close sampleCoreAC.
Proof.
  assert (Hvisit : [sampleEnvContextC; sampleEnvContext] ≡ₚ indexedEnvs sampleCoreAC).
  { assert (indexedEnvs sampleCoreAC = [sampleEnvContext; sampleEnvContextC]
            ∨ indexedEnvs sampleCoreAC = [sampleEnvContextC; sampleEnvContext]) as [-> | ->].
    { vm_compute. auto. }
    - apply Permutation_swap.
    - done. }
  split; [apply reachable_sampleCoreAC|]. split; [reflexivity|].
  split; [exact Hvisit|].
  destruct (Close_idempotent sampleCoreAC reachable_sampleCoreAC)
    as (Hfirst & _ & Hsecond & _).
  destruct (Hfirst eq_refl _ Hvisit) as (H1 & H2 & _ & _ & H3 & _ & _ & H4 & _).
  split; [exact H1|]. split; [unfold GetEnvironment; by rewrite H2|].
  split; [exact H3|].
  split; [exact (H4 "sdk-A" sampleEnvContext eq_refl)|]. exact Hsecond.
Defined.

(** C5, as stated, fails: a second environment has been added under the
    server key of the first; the first is live and is still returned by
    GetEnvironment for its mobile key, yet Close does not close it. *)
Lemma Close_replaced_environment_not_closed :
  reachable sampleCoreAZ ∧
  closed sampleCoreAZ = false ∧
  live sampleCoreAZ sampleEnvContext ∧
  GetEnvironment sampleCoreAZ (MobileKey "mob-A") = Some sampleEnvContext ∧
  closed (Close sampleCoreAZ) = true ∧
  closeCalls (Close sampleCoreAZ) =
    [CloseMetricsManager; CloseEnv (env_id sampleEnvContextZ);
     CloseStreamProvider serverSideStreamProvider;
     CloseStreamProvider serverSideFlagsStreamProvider;
     CloseStreamProvider mobileStreamProvider;
     CloseStreamProvider jsClientStreamProvider] ∧
  env_id sampleEnvContextZ ≠ env_id sampleEnvContext ∧
  closeCount (Close sampleCoreAZ) (CloseEnv (env_id sampleEnvContext)) = 0%nat.
Proof.
  split; [apply reachable_sampleCoreAZ|]. split; [reflexivity|].
  split.
  { split; [apply list_elem_of_here | apply not_elem_of_nil]. }
  repeat split; try reflexivity. discriminate.
Qed.



End relay_properties.

(* ===================================================================== *)
(** * The event dispatcher                                                *)
(* ===================================================================== *)

Section events_properties.
Import events.
Context {Rand : Type} `{!Runtime Rand}.

Lemma length_zero_iff_empty (s : string) :
  (String.length s =? 0)%nat = true ↔ s = "".
Proof. destruct s; simpl; split; intros; congruence. Qed.

(** The response is complete when the handler returns: the goroutine does
    not touch it. *)
Lemma serve_response (w : @World Rand) (req : Request) :
  fst (serve w req) = fst (fst (dispatchEvents w newResponseWriter req)).
Proof.
  unfold serve. destruct (dispatchEvents w newResponseWriter req) as [[rw w'] [body|]]; done.
Qed.

Lemma dispatchEvents_response (w : @World Rand) (req : Request) :
  fst (fst (dispatchEvents w newResponseWriter req)) =
    match req_BodyErr req with
    | Some _ => badRequest "unable to read request body"
    | None =>
      if decide (req_Body req = "") then badRequest "body may not be empty"
      else accepted
    end.
Proof.
  unfold dispatchEvents. destruct (req_BodyErr req) as [err|]; [done|].
  destruct (String.length (req_Body req) =? 0)%nat eqn:E.
  - apply length_zero_iff_empty in E. by rewrite decide_True.
  - rewrite decide_False; [done|]. intros He%length_zero_iff_empty. congruence.
Qed.

Lemma serve_accepted (w : @World Rand) (req : Request) :
  req_BodyErr req = None -> req_Body req ≠ "" ->
  serve w req = (accepted, dispatchWorker w (req_Body req) req).
Proof.
  intros Herr Hbody. unfold serve, dispatchEvents. rewrite Herr.
  destruct (String.length (req_Body req) =? 0)%nat eqn:E; [|done].
  by apply length_zero_iff_empty in E.
Qed.

(** ** C7 *)

(** C7.  The response to an event POST depends on the request body alone.
    A read error gives status 400 with the JSON envelope whose message is
    "unable to read request body", and the error is logged; an empty body
    gives 400 with the envelope whose message is "body may not be empty";
    any other body gives 202 with nothing written, and this response is
    already complete when the handler returns, before the body is parsed.
    In the goroutine, a body that does not parse adds one unmarshaling
    error to the dispatcher's log and touches neither relay, the generator
    nor the global log; a panic of the verbatim relay is recovered and adds
    one entry to the dispatcher's log; in both cases the response stays the
    202 already given. *)
Theorem dispatchEvents_response_from_body (w : @World Rand) (req : Request) :
  (∀ bodyErr, req_BodyErr req = Some bodyErr ->
     fst (serve w req) =
       {| rw_status := Some 400;
          rw_body :=
            String "{" (String "034" ("message" +:+ String "034" (String ":" (String "034"
              ("unable to read request body" +:+ String "034" "}"))))) |} ∧
     d_loggers (w_dispatcher (snd (serve w req)))
       = d_loggers (w_dispatcher w) ++ [LogErrorReadingBody bodyErr]) ∧
  (req_BodyErr req = None -> req_Body req = "" ->
     fst (serve w req) =
       {| rw_status := Some 400;
          rw_body :=
            String "{" (String "034" ("message" +:+ String "034" (String ":" (String "034"
              ("body may not be empty" +:+ String "034" "}"))))) |} ∧
     snd (serve w req) = w) ∧
  (req_BodyErr req = None -> req_Body req ≠ "" ->
     fst (fst (dispatchEvents w newResponseWriter req))
       = {| rw_status := Some 202; rw_body := "" |} ∧
     fst (serve w req) = {| rw_status := Some 202; rw_body := "" |} ∧
     (∀ err, json_Unmarshal (req_Body req) = inl err ->
        d_loggers (w_dispatcher (snd (serve w req)))
          = d_loggers (w_dispatcher w) ++ [LogErrorUnmarshaling err] ∧
        d_verbatimRelay (w_dispatcher (snd (serve w req)))
          = d_verbatimRelay (w_dispatcher w) ∧
        d_summarizingRelay (w_dispatcher (snd (serve w req)))
          = d_summarizingRelay (w_dispatcher w) ∧
        w_rGen (snd (serve w req)) = w_rGen w ∧
        w_globalLoggers (snd (serve w req)) = w_globalLoggers w) ∧
     (∀ evts err vr rGen,
        json_Unmarshal (req_Body req) = inr evts ->
        SummaryEventsSchemaVersion <= payloadVersionOf req ->
        enqueue (snd (getVerbatimRelay (w_dispatcher w))) (w_rGen w) evts
          = (Panicked err, vr, rGen) ->
        d_loggers (w_dispatcher (snd (serve w req))) =
          d_loggers (w_dispatcher w) ++ [LogUnexpectedPanic err])).
Proof.
  split_and!.
  - intros bodyErr Herr. split.
    + by rewrite serve_response, dispatchEvents_response, Herr.
    + unfold serve, dispatchEvents. by rewrite Herr.
  - intros Herr Hbody. split.
    + rewrite serve_response, dispatchEvents_response, Herr. by rewrite decide_True.
    + unfold serve, dispatchEvents. by rewrite Herr, Hbody.
  - intros Herr Hbody. split_and!.
    + rewrite dispatchEvents_response, Herr. by rewrite decide_False.
    + by rewrite serve_accepted.
    + intros err Hparse. rewrite serve_accepted by done. simpl.
      unfold dispatchWorker. by rewrite Hparse.
    + intros evts err vr rGen Hparse Hver Henq.
      rewrite serve_accepted by done. simpl.
      unfold dispatchWorker. rewrite Hparse.
      apply Z.leb_le in Hver. rewrite Hver.
      destruct (getVerbatimRelay (w_dispatcher w)) as [r1 vr1] eqn:Hget.
      simpl in Henq. rewrite Henq. simpl.
      unfold getVerbatimRelay in Hget.
      destruct (d_verbatimRelay (w_dispatcher w)); by injection Hget as <- <-.
Qed.

(** ** C8 *)

Lemma wrap_int_0 (w : Z) : wrap_int w 0 = 0.
Proof.
  unfold wrap_int. rewrite Z.add_0_l.
  destruct (Z.lt_ge_cases w 1) as [Hlt|Hge].
  - rewrite (Z.pow_neg_r 2 (w - 1)) by lia. by rewrite Zmod_0_l.
  - rewrite Z.mod_small; [lia|].
    split; [apply Z.pow_nonneg; lia|].
    apply Z.pow_lt_mono_r; lia.
Qed.

Lemma wrap_int_small (w x : Z) : 1 <= w -> 0 <= x < 2 ^ (w - 1) -> wrap_int w x = x.
Proof.
  intros Hw Hx. unfold wrap_int.
  assert (2 ^ w = 2 * 2 ^ (w - 1)) as Hpow.
  { replace w with (Z.succ (w - 1)) at 1 by lia. apply Z.pow_succ_r. lia. }
  rewrite Z.mod_small; lia.
Qed.

Lemma wrap_int_min (w : Z) : 1 <= w -> wrap_int w (- 2 ^ (w - 1)) = - 2 ^ (w - 1).
Proof.
  intros Hw. unfold wrap_int.
  replace (- 2 ^ (w - 1) + 2 ^ (w - 1)) with 0 by lia.
  by rewrite Zmod_0_l.
Qed.

(** When Atoi reports a syntax error the number it returns is 0. *)
Lemma Atoi_syntax_error (w : Z) (s : string) :
  snd (Atoi w s) = Some ErrSyntax -> fst (Atoi w s) = 0.
Proof.
  unfold Atoi.
  destruct ((w =? 32) && (0 <? Z.of_nat (String.length s))
              && (Z.of_nat (String.length s) <? 10)
            || (w =? 64) && (0 <? Z.of_nat (String.length s))
              && (Z.of_nat (String.length s) <? 19)).
  - destruct s as [|c rest]; [done|].
    destruct (is_sign c && _); [done|].
    by destruct (atoi_fast_loop w _ 0).
  - destruct (ParseInt w s) as [i64 err] eqn:E. simpl. intros ->.
    assert (i64 = 0) as ->; [|apply wrap_int_0].
    revert E. unfold ParseInt. destruct s as [|c rest]; [congruence|].
    destruct (ParseUint w _) as [un [[]|]]; [congruence|..];
      repeat case_match; congruence.
Qed.

(** When Atoi reports a range error the number it returns is the largest
    or the smallest int. *)
Lemma Atoi_range_error (w : Z) (s : string) :
  1 <= w ->
  snd (Atoi w s) = Some ErrRange ->
  fst (Atoi w s) = 2 ^ (w - 1) - 1 ∨ fst (Atoi w s) = - 2 ^ (w - 1).
Proof.
  intros Hw. unfold Atoi.
  assert (0 < 2 ^ (w - 1)) as Hpos by (apply Z.pow_pos_nonneg; lia).
  destruct ((w =? 32) && (0 <? Z.of_nat (String.length s))
              && (Z.of_nat (String.length s) <? 10)
            || (w =? 64) && (0 <? Z.of_nat (String.length s))
              && (Z.of_nat (String.length s) <? 19)).
  - destruct s as [|c rest]; [done|].
    destruct (is_sign c && _); [done|].
    by destruct (atoi_fast_loop w _ 0).
  - destruct (ParseInt w s) as [i64 err] eqn:E. simpl. intros ->.
    revert E. unfold ParseInt. destruct s as [|c rest]; [congruence|].
    destruct (ParseUint w _) as [un [[]|]]; [congruence|..];
      repeat case_match; intros [= <-];
      first [ left; apply wrap_int_small; lia | right; by apply wrap_int_min ].
Qed.

Lemma Atoi_empty (w : Z) : Atoi w "" = (0, Some ErrSyntax).
Proof.
  unfold Atoi. simpl. rewrite !andb_false_r. simpl. by rewrite wrap_int_0.
Qed.

Lemma header_first_absent (h : list (string * string)) (name : string) :
  (∀ v, (name, v) ∉ h) -> header_first h name = "".
Proof.
  induction h as [|[k v] h IH]; intros Habs; simpl; [done|].
  case_decide as Hk.
  - subst k. destruct (Habs v). apply list_elem_of_here.
  - apply IH. intros v' Hin. apply (Habs v'). by apply list_elem_of_further.
Qed.


(** ** C9 and C10 *)

(** C10.  With SendEvents = false, enqueue of the verbatim relay returns at
    once for every batch: PublishRaw is not called, whatever the sampling
    interval and the state of the generator, and the generator is not
    advanced. *)
Theorem enqueue_SendEvents_false (er : eventVerbatimRelay) (rGen : Rand)
    (evts : list RawMessage) :
  SendEvents (vr_config er) = false ->
  enqueue er rGen evts = (Returned, er, rGen) ∧
  vr_raw (snd (fst (enqueue er rGen evts))) = vr_raw er.
Proof.
  intros H. unfold enqueue. by rewrite H.
Qed.

(** C9 (as amended).  When SendEvents is true and the relay has a
    publisher: with a sampling interval N > 0, enqueue draws Int31n(N) from
    the generator once and calls PublishRaw with the batch if and only if
    the draw is 0 (with probability 1/N for a uniform draw); with N <= 0 it
    calls PublishRaw with every batch and leaves the generator alone. *)
Theorem enqueue_sampling (er : eventVerbatimRelay) (rGen : Rand)
    (evts : list RawMessage) (p : EventPublisher) :
  SendEvents (vr_config er) = true ->
  vr_publisher er = Some p ->
  let N := SamplingInterval (vr_config er) in
  let er' := snd (fst (enqueue er rGen evts)) in
  fst (fst (enqueue er rGen evts)) = Returned ∧
  (0 < N ->
     snd (enqueue er rGen evts) = snd (Int31n rGen N) ∧
     (fst (Int31n rGen N) = 0 -> vr_raw er' = vr_raw er ++ [evts]) ∧
     (fst (Int31n rGen N) ≠ 0 -> er' = er) ∧
     (vr_raw er' = vr_raw er ++ [evts] ↔ fst (Int31n rGen N) = 0)) ∧
  (N <= 0 ->
     snd (enqueue er rGen evts) = rGen ∧
     vr_raw er' = vr_raw er ++ [evts]).
Proof.
  intros Hsend Hpub N er'. subst er'. unfold enqueue. rewrite Hsend. simpl.
  fold N. destruct (0 <? N) eqn:HN.
  - destruct (Int31n rGen N) as [v g'] eqn:Hdraw. simpl.
    destruct (v =? 0) eqn:Hv; simpl.
    + rewrite Hpub. apply Z.eqb_eq in Hv.
      assert (Hraw : vr_raw {| vr_config := vr_config er;
                               vr_publisher := Some (PublishRaw p evts) |}
                     = vr_raw er ++ [evts]).
      { unfold vr_raw. by rewrite Hpub. }
      split; [done|]. split; [|apply Z.ltb_lt in HN; lia].
      intros _. split_and!; try done.
    + apply Z.eqb_neq in Hv.
      split; [done|]. split; [|apply Z.ltb_lt in HN; lia].
      intros _. split_and!; try done.
      split; [|done]. intros Heq. exfalso.
      apply (f_equal length) in Heq. rewrite length_app in Heq. simpl in Heq. lia.
  - apply Z.ltb_ge in HN. simpl. rewrite Hpub. simpl.
    split; [done|]. split; [lia|]. intros _. split; [done|].
    unfold vr_raw. simpl. by rewrite Hpub.
Qed.

End events_properties.

(** ** The statements above on the sample runtime *)

Section events_samples.
Import events.
#[local] Existing Instance sampleRuntime.

(** Atoi on a 64-bit platform: numerals, syntax errors, and numerals out of
    range, for which the Go library returns the nearest int together with a
    range error. *)
Example Atoi_samples :
  Atoi 64 "3" = (3, None) ∧
  Atoi 64 "-5" = (-5, None) ∧
  Atoi 64 "+12" = (12, None) ∧
  Atoi 64 "0" = (0, None) ∧
  Atoi 64 "" = (0, Some ErrSyntax) ∧
  Atoi 64 "three" = (0, Some ErrSyntax) ∧
  Atoi 64 "3 " = (0, Some ErrSyntax) ∧
  Atoi 64 "9223372036854775807" = (2 ^ 63 - 1, None) ∧
  Atoi 64 "9223372036854775808" = (2 ^ 63 - 1, Some ErrRange) ∧
  Atoi 64 "-9223372036854775809" = (- 2 ^ 63, Some ErrRange) ∧
  Atoi 32 "2147483648" = (2 ^ 31 - 1, Some ErrRange).
Proof. repeat split; reflexivity. Qed.

(** A schema header holding a numeral beyond the int range is neither absent
    nor a syntax error: its payload version is the largest int, so the
    batch goes to the verbatim relay. *)
Example payloadVersion_out_of_range :
  payloadVersionOf (sampleRequest (Some "99999999999999999999") sampleBody None)
    = 2 ^ 63 - 1.
Proof. reflexivity. Qed.

Example TrimRight_slash_samples :
  TrimRight_slash "https://events.example.com//" = "https://events.example.com" ∧
  TrimRight_slash "a/b" = "a/b" ∧
  TrimRight_slash "//" = "".
Proof. repeat split; reflexivity. Qed.

Example ErrorJsonMsg_sample :
  String.length (ErrorJsonMsg "body may not be empty") = 35%nat ∧
  String.get 0 (ErrorJsonMsg "body may not be empty") = Some "{"%char ∧
  String.get 1 (ErrorJsonMsg "body may not be empty") = Some "034"%char.
Proof. repeat split; reflexivity. Qed.

Lemma dispatchEvents_response_from_body_witness :
  fst (serve (sampleWorld "sdk-A") (sampleRequest None "" (Some "unexpected EOF")))
    = badRequest "unable to read request body" ∧
  d_loggers (w_dispatcher
     (snd (serve (sampleWorld "sdk-A") (sampleRequest None "" (Some "unexpected EOF")))))
    = [LogErrorReadingBody "unexpected EOF"] ∧
  fst (serve (sampleWorld "sdk-A") (sampleRequest None "" None))
    = badRequest "body may not be empty" ∧
  snd (serve (sampleWorld "sdk-A") (sampleRequest None "" None)) = sampleWorld "sdk-A" ∧
  fst (serve (sampleWorld "sdk-A") (sampleRequest None "{" None)) = accepted ∧
  d_loggers (w_dispatcher
     (snd (serve (sampleWorld "sdk-A") (sampleRequest None "{" None))))
    = [LogErrorUnmarshaling "invalid character"] ∧
  d_verbatimRelay (w_dispatcher
     (snd (serve (sampleWorld "sdk-A") (sampleRequest None "{" None)))) = None ∧
  fst (serve (sampleWorld "bad-key") (sampleRequest (Some "3") sampleBody None))
    = accepted ∧
  d_loggers (w_dispatcher
     (snd (serve (sampleWorld "bad-key") (sampleRequest (Some "3") sampleBody None))))
    = [LogUnexpectedPanic
         "runtime error: invalid memory address or nil pointer dereference"].
Proof.
  destruct (dispatchEvents_response_from_body (sampleWorld "sdk-A")
              (sampleRequest None "" (Some "unexpected EOF"))) as (Hread & _ & _).
  destruct (Hread "unexpected EOF" eq_refl) as [Hread1 Hread2].
  destruct (dispatchEvents_response_from_body (sampleWorld "sdk-A")
              (sampleRequest None "" None)) as (_ & Hempty & _).
  destruct (Hempty eq_refl eq_refl) as [Hempty1 Hempty2].
  destruct (dispatchEvents_response_from_body (sampleWorld "sdk-A")
              (sampleRequest None "{" None)) as (_ & _ & Hbad).
  destruct Hbad as (_ & Hbad1 & Hbad2 & _); [reflexivity | discriminate |].
  destruct (Hbad2 "invalid character" eq_refl) as (Hbad3 & Hbad4 & _).
  destruct (dispatchEvents_response_from_body (sampleWorld "bad-key")
              (sampleRequest (Some "3") sampleBody None)) as (_ & _ & Hpanic).
  destruct Hpanic as (_ & Hpanic1 & _ & Hpanic2); [reflexivity | discriminate |].
  split; [exact Hread1|]. split; [exact Hread2|].
  split; [exact Hempty1|]. split; [exact Hempty2|].
  split; [exact Hbad1|]. split; [exact Hbad3|]. split; [exact Hbad4|].
  split; [exact Hpanic1|].
  refine (Hpanic2 ["{}"] _ _ _ eq_refl _ eq_refl).
  vm_compute. discriminate.
Defined.



(** The schema header is looked up under its canonical name, as
    http.Header.Get does. *)
Example CanonicalMIMEHeaderKey_samples :
  CanonicalMIMEHeaderKey EventSchemaHeader = "X-Launchdarkly-Event-Schema" ∧
  CanonicalMIMEHeaderKey "content-type" = "Content-Type" ∧
  CanonicalMIMEHeaderKey "bad key" = "bad key" ∧
  Header_Get [("X-Launchdarkly-Event-Schema", "3")] EventSchemaHeader = "3" ∧
  Header_Get [("X-LaunchDarkly-Event-Schema", "3")] EventSchemaHeader = "".
Proof. repeat split; reflexivity. Qed.

Lemma enqueue_SendEvents_false_witness :
  SendEvents (vr_config (sampleRelay false 0)) = false ∧
  enqueue (sampleRelay false 0) 1 ["{}"] = (Returned, sampleRelay false 0, 1) ∧
  enqueue (sampleRelay false 2) 1 ["{}"] = (Returned, sampleRelay false 2, 1).
Proof.
  split; [reflexivity|]. split.
  - apply (enqueue_SendEvents_false (sampleRelay false 0) 1 ["{}"] eq_refl).
  - apply (enqueue_SendEvents_false (sampleRelay false 2) 1 ["{}"] eq_refl).
Defined.

(** C9, as stated, fails: with SendEvents = false a batch offered to the
    verbatim relay is not forwarded although the sampling interval is 0. *)
Lemma enqueue_unsampled_not_forwarded :
  SamplingInterval (vr_config (sampleRelay false 0)) <= 0 ∧
  vr_raw (sampleRelay false 0) = [] ∧
  vr_raw (snd (fst (enqueue (sampleRelay false 0) 1 ["{}"]))) = [] ∧
  vr_raw (snd (fst (enqueue (sampleRelay false 0) 1 ["{}"])))
    ≠ vr_raw (sampleRelay false 0) ++ [["{}"]].
Proof.
  split; [simpl; lia|]. split; [reflexivity|]. split; [reflexivity|]. discriminate.
Qed.

Lemma enqueue_sampling_witness :
  (* N = 2, the draw is 0: published *)
  fst (Int31n (1 : Z) 2) = 0 ∧
  vr_raw (snd (fst (enqueue (sampleRelay true 2) 1 ["{}"]))) = [["{}"]] ∧
  (* N = 2, the draw is 1: not published *)
  fst (Int31n (42 : Z) 2) = 1 ∧
  snd (fst (enqueue (sampleRelay true 2) 42 ["{}"])) = sampleRelay true 2 ∧
  (* N = 0: published, generator untouched *)
  vr_raw (snd (fst (enqueue (sampleRelay true 0) 42 ["{}"]))) = [["{}"]] ∧
  snd (enqueue (sampleRelay true 0) 42 ["{}"]) = 42.
Proof.
  split; [reflexivity|].
  destruct (enqueue_sampling (sampleRelay true 2) 1 ["{}"] _ eq_refl eq_refl)
    as (_ & Hpos & _).
  destruct Hpos as (_ & Hpub & _); [reflexivity|].
  split; [exact (Hpub eq_refl)|].
  split; [reflexivity|].
  destruct (enqueue_sampling (sampleRelay true 2) 42 ["{}"] _ eq_refl eq_refl)
    as (_ & Hpos & _).
  destruct Hpos as (_ & _ & Hskip & _); [reflexivity|].
  split; [apply Hskip; discriminate|].
  destruct (enqueue_sampling (sampleRelay true 0) 42 ["{}"] _ eq_refl eq_refl)
    as (_ & _ & Hzero).
  destruct Hzero as [Hg Hraw]; [discriminate|].
  split; [exact Hraw | exact Hg].
Defined.

End events_samples.

(* ===================================================================== *)
(** * RelayCore: further properties                                       *)
(* ===================================================================== *)

Section relay_more.
Import relay.

(** ** Shared lemmas *)

Lemma call_closed r c : inv r -> closed r = true -> call r c = r.
Proof.
  intros Hinv Hc. destruct (inv_shut r Hinv Hc) as (Ha & _).
  destruct c as [envName envConfig x|sdkKey|]; simpl.
  - unfold AddEnvironment. by rewrite Hc.
  - rewrite RemoveEnvironment_missing; [done|]. by rewrite Ha.
  - by apply Close_closed.
Qed.

Lemma run_closed r calls : inv r -> closed r = true -> run r calls = r.
Proof.
  intros Hinv Hc. induction calls as [|c calls IH]; simpl; [done|].
  by rewrite call_closed.
Qed.

Lemma NoDup_constructed_ids r :
  inv r -> NoDup ((fun e => CloseEnv (env_id e)) <$> constructed r).
Proof.
  intros Hinv. apply NoDup_alt. intros i j c Hi Hj.
  rewrite list_lookup_fmap in Hi, Hj.
  destruct (constructed r !! i) as [ei|] eqn:Ei; [|done].
  destruct (constructed r !! j) as [ej|] eqn:Ej; [|done].
  simpl in Hi, Hj.
  rewrite (inv_ids r Hinv i ei Ei) in Hi. rewrite (inv_ids r Hinv j ej Ej) in Hj.
  congruence.
Qed.

Lemma inv_Warnf r msg : inv r -> inv (Warnf r msg).
Proof. intros [? ? ? ? ? ? ? ?]. by split. Qed.

(** ** X2 *)

(** X2.  AddEnvironment never writes to a nil map: on a reachable RelayCore
    it does not panic, and when the RelayCore is open and the data store
    and the EnvContext can be constructed, it succeeds. *)
Theorem AddEnvironment_never_panics (r : RelayCore) envName envConfig x :
  reachable r ->
  fst (AddEnvironment r envName envConfig x) ≠ AddPanic ∧
  (closed r = false -> x_ConfigureDataStore x = None -> x_NewEnvContext x = None ->
   ∃ clientContext, fst (AddEnvironment r envName envConfig x) = AddOk clientContext).
Proof.
  intros Hinv%reachable_inv.
  destruct (AddEnvironment_cases r envName envConfig x Hinv)
    as [[err Hf]|(ga & gm & gi & Hc & _ & _ & _ & _ & _ & Hok)].
  - rewrite Hf. simpl. split; [done|]. intros Hc Hd Hn.
    revert Hf. unfold AddEnvironment. rewrite Hc, Hd, Hn.
    repeat case_match; congruence.
  - rewrite Hok. simpl. split; [done|]. eauto.
Qed.

(** ** X3 *)

(** X3.  A closed RelayCore is inert.  After Close on a reachable
    RelayCore, no sequence of AddEnvironment, RemoveEnvironment and Close
    calls changes anything, GetEnvironment returns nil for every
    credential, RemoveEnvironment returns false for every key, and
    GetAllEnvironments returns an empty map. *)
Theorem closed_core_inert (r : RelayCore) (calls : list Call) :
  reachable r ->
  run (Close r) calls = Close r ∧
  (∀ credential, GetEnvironment (run (Close r) calls) credential = None) ∧
  (∀ sdkKey, RemoveEnvironment (run (Close r) calls) sdkKey = (false, Close r)) ∧
  GetAllEnvironments (run (Close r) calls) = ∅.
Proof.
  intros Hinv%reachable_inv%inv_Close.
  pose proof (closed_Close r) as Hc.
  destruct (inv_shut _ Hinv Hc) as (Ha & Hm & Hi).
  rewrite (run_closed _ calls Hinv Hc). split_and!.
  - done.
  - intros [k|k|k|k]; simpl; by rewrite ?Ha, ?Hm, ?Hi.
  - intros sdkKey. apply RemoveEnvironment_missing. by rewrite Ha.
  - unfold GetAllEnvironments. by rewrite Ha.
Qed.

(** ** X4 *)

Lemma NoDup_closeCalls r : reachable r -> NoDup (closeCalls r).
Proof.
  induction 1 as [|r c Hr IH]; [constructor|].
  pose proof (reachable_inv r Hr) as Hinv.
  destruct c as [envName envConfig x|sdkKey|]; simpl.
  - destruct (AddEnvironment_cases r envName envConfig x Hinv)
      as [[err ->]|(ga & gm & gi & _ & _ & _ & _ & _ & _ & ->)]; done.
  - destruct (map_index (allEnvironments r) sdkKey) as [env|] eqn:E.
    + rewrite (RemoveEnvironment_found _ _ _ E). simpl.
      destruct (inv_all r Hinv _ _ E) as [[_ Hnc] _].
      apply NoDup_app. split_and!; [done| |apply NoDup_singleton].
      intros c Hc ->%list_elem_of_singleton. done.
    + by rewrite (RemoveEnvironment_missing _ _ E).
  - destruct (closed r) eqn:Hc; [by rewrite Close_closed|].
    destruct (Close_open_fields r Hc) as (_ & _ & _ & _ & _ & ->).
    pose proof (inv_open_calls r Hinv Hc) as Hold.
    apply NoDup_app. split_and!; [done| |].
    + intros c Hin. destruct (Hold c Hin) as [i ->].
      rewrite !elem_of_app, list_elem_of_singleton, !list_elem_of_fmap.
      intros [?|[(e & [= ->] & He)|(sp & ? & _)]]; try done.
      apply elem_of_indexedEnvs in He as (k & Hk).
      by destruct (inv_all r Hinv k e Hk) as [[_ Hnc] _].
    + apply NoDup_app. split_and!; [apply NoDup_singleton| |].
      * intros c ->%list_elem_of_singleton.
        rewrite elem_of_app, !list_elem_of_fmap.
        intros [(e & ? & _)|(sp & ? & _)]; done.
      * apply NoDup_app. split_and!.
        -- by apply NoDup_indexedEnvs.
        -- intros c (e & -> & _)%list_elem_of_fmap (sp & ? & _)%list_elem_of_fmap. done.
        -- apply NoDup_fmap; [by intros ?? [=]|]. unfold allStreamProviders.
           repeat (apply NoDup_cons; split;
                   [intros H; repeat (apply elem_of_cons in H as [H|H]; [discriminate|]);
                    by apply elem_of_nil in H|]).
           constructor.
Qed.

(** X4.  In no reachable state has RelayCore called Close twice on the same
    resource: not on an EnvContext (whether closed by RemoveEnvironment or
    by Close), not on the metrics manager, not on a stream provider. *)
Theorem no_resource_closed_twice (r : RelayCore) (c : Closeable) :
  reachable r -> (closeCount r c <= 1)%nat.
Proof.
  intros Hnd%NoDup_closeCalls%NoDup_ListNoDup. unfold closeCount.
  by apply (proj1 (NoDup_count_occ Closeable_eq_dec (closeCalls r))).
Qed.

(** ** X5 *)

(** X5.  RemoveEnvironment of one key twice: whatever the first call
    returns, the second returns false and changes nothing. *)
Theorem RemoveEnvironment_twice (r : RelayCore) (sdkKey : string) :
  RemoveEnvironment (snd (RemoveEnvironment r sdkKey)) sdkKey
    = (false, snd (RemoveEnvironment r sdkKey)).
Proof.
  destruct (map_index (allEnvironments r) sdkKey) as [env|] eqn:E.
  - rewrite (RemoveEnvironment_found _ _ _ E). simpl.
    apply RemoveEnvironment_missing. simpl.
    rewrite map_index_delete. by rewrite decide_True.
  - rewrite (RemoveEnvironment_missing _ _ E). simpl.
    by apply RemoveEnvironment_missing.
Qed.

(** ** X6 *)

(** X6.  Add, then remove.  On a reachable open RelayCore in which none of
    the credentials of a configuration is indexed, a successful
    AddEnvironment followed by RemoveEnvironment of its server key returns
    true and puts the three credential maps back exactly as they were. *)
Theorem AddEnvironment_RemoveEnvironment (r : RelayCore) envName envConfig x :
  reachable r ->
  closed r = false ->
  x_ConfigureDataStore x = None ->
  x_NewEnvContext x = None ->
  GetEnvironment r (SDKKey (cfg_SDKKey envConfig)) = None ->
  GetEnvironment r (MobileKey (cfg_MobileKey envConfig)) = None ->
  GetEnvironment r (EnvironmentID (cfg_EnvID envConfig)) = None ->
  let r1 := snd (AddEnvironment r envName envConfig x) in
  let r2 := snd (RemoveEnvironment r1 (cfg_SDKKey envConfig)) in
  fst (RemoveEnvironment r1 (cfg_SDKKey envConfig)) = true ∧
  allEnvironments r2 = allEnvironments r ∧
  envsByMobileKey r2 = envsByMobileKey r ∧
  envsByEnvID r2 = envsByEnvID r ∧
  closed r2 = false.
Proof.
  intros Hinv%reachable_inv Hc Hd Hn Hs Hm Hi r1 r2. subst r2 r1.
  destruct (inv_open r Hinv Hc) as ([ga Ha] & [gm Hgm] & [gi Hgi]).
  rewrite (AddEnvironment_open r envName envConfig x ga gm gi) by done.
  simpl in Hs, Hm, Hi. rewrite Ha in Hs. rewrite Hgm in Hm. rewrite Hgi in Hi.
  simpl in Hs, Hm, Hi. simpl.
  erewrite RemoveEnvironment_found; [|simpl; apply lookup_insert_eq].
  simpl. rewrite Ha, Hgm, Hgi. split_and!; try done.
  - f_equal. by apply delete_insert_id.
  - f_equal. case_decide as Hk.
    + apply delete_id. by rewrite Hk in Hm |- *.
    + by apply delete_insert_id.
  - f_equal. case_decide as Hk.
    + apply delete_id. by rewrite Hk in Hi |- *.
    + by apply delete_insert_id.
Qed.

(** ** X7 *)

(** X7.  Add and remove touch only the index entries of the credentials
    involved.  On a reachable RelayCore, AddEnvironment leaves the result of
    GetEnvironment unchanged for every credential that is not one of the
    three of the new configuration; RemoveEnvironment leaves it unchanged
    for every credential that is not one of the three of the environment
    found under the key. *)
Theorem GetEnvironment_frame (r : RelayCore) :
  reachable r ->
  (∀ envName envConfig x credential,
      credential ≠ SDKKey (cfg_SDKKey envConfig) ->
      credential ≠ MobileKey (cfg_MobileKey envConfig) ->
      credential ≠ EnvironmentID (cfg_EnvID envConfig) ->
      GetEnvironment (snd (AddEnvironment r envName envConfig x)) credential
        = GetEnvironment r credential) ∧
  (∀ sdkKey env credential,
      GetEnvironment r (SDKKey sdkKey) = Some env ->
      credential ≠ SDKKey sdkKey ->
      credential ≠ MobileKey (cred_MobileKey (env_credentials env)) ->
      credential ≠ EnvironmentID (cred_EnvironmentID (env_credentials env)) ->
      GetEnvironment (snd (RemoveEnvironment r sdkKey)) credential
        = GetEnvironment r credential).
Proof.
  intros Hinv%reachable_inv. split.
  - intros envName envConfig x credential H1 H2 H3.
    destruct (AddEnvironment_cases r envName envConfig x Hinv)
      as [[err ->]|(ga & gm & gi & _ & Ha & Hm & Hi & _ & _ & ->)]; [done|].
    destruct credential as [k|k|k|k]; simpl; rewrite ?Ha, ?Hm, ?Hi; simpl; try done.
    + apply lookup_insert_ne. congruence.
    + case_decide; [done|]. apply lookup_insert_ne. congruence.
    + case_decide; [done|]. apply lookup_insert_ne. congruence.
  - intros sdkKey env credential Hfound H1 H2 H3. simpl in Hfound.
    rewrite (RemoveEnvironment_found _ _ _ Hfound).
    destruct credential as [k|k|k|k]; simpl; try done;
      rewrite map_index_delete; case_decide; congruence.
Qed.

(** ** X8 *)

(** X8.  The mobile-key and environment-ID entries are deleted by key, not
    by owner.  If the environment found under a server key has a mobile key
    (or environment ID) that the index currently resolves to another
    environment, RemoveEnvironment deletes that entry too: the other
    environment stays live and keeps its server-key entry, but GetEnvironment
    of the shared mobile key (or environment ID) now returns nil. *)
Theorem RemoveEnvironment_shared_credential (r : RelayCore) (sdkKey : string)
    (env other : EnvContext) (credential : SDKCredential) :
  reachable r ->
  GetEnvironment r (SDKKey sdkKey) = Some env ->
  credential = MobileKey (cred_MobileKey (env_credentials env)) ∨
  credential = EnvironmentID (cred_EnvironmentID (env_credentials env)) ->
  GetEnvironment r credential = Some other ->
  other ≠ env ->
  let r' := snd (RemoveEnvironment r sdkKey) in
  GetEnvironment r' credential = None ∧
  belongs credential other ∧
  live r' other ∧
  (∀ k, GetEnvironment r (SDKKey k) = Some other ->
        GetEnvironment r' (SDKKey k) = Some other).
Proof.
  intros Hinv%reachable_inv Hfound Hcred Hother Hne r'. subst r'.
  simpl in Hfound. rewrite (RemoveEnvironment_found _ _ _ Hfound). simpl.
  destruct (GetEnvironment_live_belongs r credential other Hinv Hother) as [Hl Hb].
  destruct (inv_all r Hinv _ _ Hfound) as [Hlive _].
  split_and!.
  - destruct Hcred as [-> | ->]; simpl; rewrite map_index_delete; by rewrite decide_True.
  - done.
  - by apply live_removed.
  - intros k Hk. simpl in *. rewrite map_index_delete. case_decide; [|done].
    subst k. congruence.
Qed.

(** ** NewRelayCore *)

Lemma AddEnvironment_sansWarnings r1 r2 envName envConfig x :
  sansWarnings r1 = sansWarnings r2 ->
  fst (AddEnvironment r1 envName envConfig x) = fst (AddEnvironment r2 envName envConfig x) ∧
  sansWarnings (snd (AddEnvironment r1 envName envConfig x))
    = sansWarnings (snd (AddEnvironment r2 envName envConfig x)).
Proof.
  destruct r1 as [a1 m1 i1 c1 k1 cc1 w1], r2 as [a2 m2 i2 c2 k2 cc2 w2].
  unfold sansWarnings. simpl. intros [= -> -> -> -> -> ->].
  unfold AddEnvironment. simpl.
  destruct c2; [done|]. destruct (x_ConfigureDataStore x); [done|].
  destruct (x_NewEnvContext x); [done|].
  unfold NewEnvContext, with_constructed, with_allEnvironments. simpl.
  destruct a2 as [ga|]; simpl; [|done].
  destruct (decide (cfg_MobileKey envConfig = "")),
           (decide (cfg_EnvID envConfig = ""));
    destruct m2 as [gm|], i2 as [gi|]; simpl; done.
Qed.

Lemma run_configured_sansWarnings envs r1 r2 :
  sansWarnings r1 = sansWarnings r2 ->
  sansWarnings (run r1 (configuredCalls envs)) = sansWarnings (run r2 (configuredCalls envs)).
Proof.
  revert r1 r2. induction envs as [|[[envName [envConfig|]] x] envs IH];
    intros r1 r2 H; simpl; [done| |by apply IH].
  apply IH. by apply AddEnvironment_sansWarnings.
Qed.

Lemma is_Some_GetEnvironment_added r envName envConfig x ga gm gi credential :
  allEnvironments r = Some ga -> envsByMobileKey r = Some gm -> envsByEnvID r = Some gi ->
  is_Some (GetEnvironment r credential) ->
  is_Some (GetEnvironment (added r envName envConfig x ga gm gi) credential).
Proof.
  intros Ha Hm Hi. destruct credential as [k|k|k|k]; simpl;
    rewrite ?Ha, ?Hm, ?Hi; simpl; try done.
  - rewrite lookup_insert. by case_decide.
  - case_decide; [done|]. rewrite lookup_insert. by case_decide.
  - case_decide; [done|]. rewrite lookup_insert. by case_decide.
Qed.

Lemma addConfigured_spec envs :
  ∀ r thingsToCleanUp,
    loopInvariant r thingsToCleanUp ->
    match addConfigured envs r thingsToCleanUp with
    | LoopDone r' thingsToCleanUp' =>
      loopInvariant r' thingsToCleanUp' ∧
      sansWarnings r' = sansWarnings (run r (configuredCalls envs)) ∧
      (∀ credential, is_Some (GetEnvironment r credential) ->
                     is_Some (GetEnvironment r' credential)) ∧
      (∀ envName envConfig x, (envName, Some envConfig, x) ∈ envs ->
         is_Some (GetEnvironment r' (SDKKey (cfg_SDKKey envConfig))))
    | LoopFailed err r' thingsToCleanUp' => loopInvariant r' thingsToCleanUp'
    | LoopPanic => False
    end.
Proof.
  induction envs as [|[[envName [envConfig|]] x] envs IH];
    intros r tasks (Hinv & Hc & Hcc & Htasks).
  - simpl. split_and!; try done. intros ? ? ? H. by apply elem_of_nil in H.
  - simpl.
    destruct (AddEnvironment_cases r envName envConfig x Hinv)
      as [[err ->]|(ga & gm & gi & _ & Ha & Hm & Hi & _ & _ & Hok)]; [done|].
    rewrite Hok.
    set (r1 := added r envName envConfig x ga gm gi).
    assert (Hloop : loopInvariant r1
              (tasks ++ [CloseEnv (env_id (NewEnvContext r envName envConfig
                                             (makeJSClientContext envConfig) x))])).
    { split_and!; [by apply inv_added|done|done|].
      subst tasks. simpl. by rewrite fmap_app. }
    specialize (IH r1 _ Hloop).
    destruct (addConfigured envs r1 _) as [r' tasks'|err r' tasks'|]; [|done|done].
    destruct IH as (Hl & Hsame & Hmono & Hfound). split_and!; [done| | |].
    + exact Hsame.
    + intros credential Hsome. apply Hmono.
      by apply is_Some_GetEnvironment_added.
    + intros n cfg x' [Heq|Hin]%elem_of_cons; [|by eapply Hfound].
      injection Heq as -> -> ->. apply (Hmono (SDKKey _)). simpl.
      rewrite lookup_insert_eq. eauto.
  - simpl.
    assert (Hloop : loopInvariant
              (Warnf r ("environment config was nil for environment "
                        +:+ quoted envName +:+ "; ignoring")) tasks).
    { split_and!; [by apply inv_Warnf|done..]. }
    specialize (IH _ _ Hloop).
    destruct (addConfigured envs _ tasks) as [r' tasks'|err r' tasks'|]; [|done|done].
    destruct IH as (Hl & Hsame & Hmono & Hfound). split_and!; [done| |done|].
    + rewrite Hsame. by apply run_configured_sansWarnings.
    + intros n cfg x' [Heq|Hin]%elem_of_cons; [done|by eapply Hfound].
Qed.

Lemma addConfigured_succeeds envs :
  ∀ r thingsToCleanUp,
    loopInvariant r thingsToCleanUp ->
    Forall (fun '(_, _, x) => collaboratorsSucceed x) envs ->
    ∃ r' thingsToCleanUp', addConfigured envs r thingsToCleanUp = LoopDone r' thingsToCleanUp'.
Proof.
  induction envs as [|[[envName [envConfig|]] x] envs IH];
    intros r tasks (Hinv & Hc & Hcc & Htasks) Hall.
  - simpl. eauto.
  - apply Forall_cons in Hall as [[Hd Hn] Hall]. simpl.
    destruct (inv_open r Hinv Hc) as ([ga Ha] & [gm Hm] & [gi Hi]).
    rewrite (AddEnvironment_open r envName envConfig x ga gm gi) by done.
    apply IH; [|done].
    split_and!; [by apply inv_added|done|done|].
    subst tasks. simpl. by rewrite fmap_app.
  - apply Forall_cons in Hall as [_ Hall]. simpl.
    apply IH; [|done]. split_and!; [by apply inv_Warnf|done..].
Qed.

Lemma loopInvariant_newRelayCore : loopInvariant newRelayCore [CloseMetricsManager].
Proof. split_and!; [apply inv_newRelayCore|done..]. Qed.

(** X9.  When NewRelayCore fails, its deferred clean-up closes every
    EnvContext constructed before the failure exactly once and closes
    nothing that was not acquired; the metrics manager is closed exactly
    when it had been created; the four stream providers, created with the
    RelayCore but never registered for clean-up, are not closed. *)
Theorem NewRelayCore_failure_cleanup (c : CoreConfig) err envs cleanup :
  NewRelayCore c = NewCoreFailed err envs cleanup ->
  NoDup cleanup ∧
  (∀ env, env ∈ envs -> CloseEnv (env_id env) ∈ cleanup) ∧
  (∀ id, CloseEnv id ∈ cleanup -> ∃ env, env ∈ envs ∧ env_id env = id) ∧
  (∀ sp, CloseStreamProvider sp ∉ cleanup) ∧
  (CloseMetricsManager ∈ cleanup ↔
   c_ValidateConfig c = None ∧ c_Environment c ≠ [] ∧ c_NewManager c = None).
Proof.
  unfold NewRelayCore.
  destruct (c_ValidateConfig c) as [e|].
  { intros [= <- <- <-]. split_and!; try (by intros ? ?%elem_of_nil).
    - constructor.
    - split; [by intros ?%elem_of_nil | by intros (? & _)]. }
  destruct (c_Environment c) as [|e0 envs0] eqn:Henvs.
  { simpl. intros [= <- <- <-]. split_and!; try (by intros ? ?%elem_of_nil).
    - constructor.
    - split; [by intros ?%elem_of_nil | by intros (_ & ? & _)]. }
  simpl length. simpl Nat.eqb. cbv iota.
  destruct (c_NewManager c) as [e|].
  { intros [= <- <- <-]. split_and!; try (by intros ? ?%elem_of_nil).
    - constructor.
    - split; [by intros ?%elem_of_nil | by intros (_ & _ & ?)]. }
  destruct (negb (c_BaseURI_defined c) && negb (c_DefaultBaseURI_parses c)).
  { intros [= <- <- <-]. unfold CleanupTasks_Run. simpl. split_and!.
    - apply NoDup_singleton.
    - by intros ? ?%elem_of_nil.
    - by intros ? ?%list_elem_of_singleton.
    - by intros ? ?%list_elem_of_singleton.
    - split; [done|]. intros _. by apply list_elem_of_singleton. }
  pose proof (addConfigured_spec (e0 :: envs0) _ _ loopInvariant_newRelayCore) as Hspec.
  destruct (addConfigured (e0 :: envs0) newRelayCore [CloseMetricsManager])
    as [r' tasks'|err' r' tasks'|]; [done| |done].
  intros [= <- <- <-]. destruct Hspec as (Hinv & _ & _ & ->).
  unfold CleanupTasks_Run. split_and!.
  - rewrite reverse_Permutation. apply NoDup_cons. split.
    + by intros (e & ? & _)%list_elem_of_fmap.
    + by apply NoDup_constructed_ids.
  - intros env Hin. rewrite elem_of_reverse, elem_of_cons, list_elem_of_fmap. eauto.
  - intros id. rewrite elem_of_reverse, elem_of_cons, list_elem_of_fmap.
    intros [?|(e & [= ->] & He)]; [done|eauto].
  - intros sp. rewrite elem_of_reverse, elem_of_cons, list_elem_of_fmap.
    by intros [?|(e & ? & _)].
  - split; [done|]. intros _. rewrite elem_of_reverse. apply list_elem_of_here.
Qed.

(** X10.  NewRelayCore never panics.  When it succeeds, the RelayCore it
    returns is, but for the warnings logged about nil configurations, the
    one produced from the empty maps by AddEnvironment on the configured
    environments in order: it is open, nothing has been closed, and the
    server key of every configured environment resolves to a live
    environment with that server key.  It does succeed whenever the
    configuration is valid and not empty, the metrics manager and a base URL
    can be made, and every configured environment can be constructed. *)
Theorem NewRelayCore_success (c : CoreConfig) :
  NewRelayCore c ≠ NewCorePanic ∧
  (∀ r, NewRelayCore c = NewCoreOk r ->
     sansWarnings r = sansWarnings (run newRelayCore (configuredCalls (c_Environment c))) ∧
     closed r = false ∧
     closeCalls r = [] ∧
     (∀ envName envConfig x, (envName, Some envConfig, x) ∈ c_Environment c ->
        ∃ env, GetEnvironment r (SDKKey (cfg_SDKKey envConfig)) = Some env ∧
               live r env ∧
               cred_SDKKey (env_credentials env) = cfg_SDKKey envConfig)) ∧
  (c_ValidateConfig c = None -> c_Environment c ≠ [] -> c_NewManager c = None ->
   c_BaseURI_defined c = true ∨ c_DefaultBaseURI_parses c = true ->
   Forall (fun '(_, _, x) => collaboratorsSucceed x) (c_Environment c) ->
   ∃ r, NewRelayCore c = NewCoreOk r).
Proof.
  pose proof (addConfigured_spec (c_Environment c) _ _ loopInvariant_newRelayCore) as Hspec.
  unfold NewRelayCore. split_and!.
  - repeat case_match; try done.
  - intros r. destruct (c_ValidateConfig c); [done|].
    destruct (length (c_Environment c) =? 0)%nat; [done|].
    destruct (c_NewManager c); [done|].
    destruct (negb (c_BaseURI_defined c) && negb (c_DefaultBaseURI_parses c)); [done|].
    destruct (addConfigured (c_Environment c) newRelayCore [CloseMetricsManager])
      as [r' tasks'|err' r' tasks'|]; [|done|done].
    intros [= <-]. destruct Hspec as ((Hinv & Hc & Hcc & _) & Hsame & _ & Hfound).
    split_and!; try done.
    intros envName envConfig x Hin.
    destruct (Hfound envName envConfig x Hin) as [env Henv].
    exists env. split; [done|]. by apply (inv_all r' Hinv).
  - intros -> Hne -> Hbase Hall.
    destruct (c_Environment c) as [|e0 envs0] eqn:Henvs; [done|].
    simpl length. simpl Nat.eqb. cbv iota.
    assert (negb (c_BaseURI_defined c) && negb (c_DefaultBaseURI_parses c) = false) as ->.
    { destruct Hbase as [-> | ->]; [done|]. by rewrite andb_false_r. }
    destruct (addConfigured_succeeds (e0 :: envs0) _ _ loopInvariant_newRelayCore Hall)
      as (r' & tasks' & ->).
    eauto.
Qed.

(** ** The statements above at the sample environments *)

Lemma reachable_sampleCoreAB : reachable sampleCoreAB.
Proof. apply reachable_call, reachable_call, reachable_new. Qed.

Lemma distinct_lookup_witness :
  reachable_distinct sampleCoreAC ∧
  live sampleCoreAC sampleEnvContext ∧
  live sampleCoreAC sampleEnvContextC ∧
  GetEnvironment sampleCoreAC (MobileKey "mob-A") = Some sampleEnvContext ∧
  GetEnvironment sampleCoreAC (EnvironmentID "env-C") = Some sampleEnvContextC.
Proof.
  assert (Hr1 : reachable_distinct sampleCore).
  { apply distinct_add; [apply distinct_new|].
    intros env [Hin _]. by apply elem_of_nil in Hin. }
  assert (Hr : reachable_distinct sampleCoreAC).
  { apply distinct_add; [exact Hr1|].
    intros env [Hin _] Hs. apply list_elem_of_singleton in Hin. subst env.
    destruct Hs as [Hs|[[Hne _]|[_ Hs]]].
    - discriminate Hs.
    - by apply Hne.
    - discriminate Hs. }
  assert (Hl : live sampleCoreAC sampleEnvContext).
  { split; [apply list_elem_of_here | by intros ?%elem_of_nil]. }
  assert (Hl' : live sampleCoreAC sampleEnvContextC).
  { split; [apply list_elem_of_further, list_elem_of_here | by intros ?%elem_of_nil]. }
  split; [exact Hr|]. split; [exact Hl|]. split; [exact Hl'|]. split.
  - apply (distinct_lookup sampleCoreAC Hr sampleEnvContext (MobileKey "mob-A") Hl).
    split; [discriminate | reflexivity].
  - apply (distinct_lookup sampleCoreAC Hr sampleEnvContextC (EnvironmentID "env-C") Hl').
    split; [discriminate | reflexivity].
Defined.

Lemma AddEnvironment_never_panics_witness :
  reachable sampleCore ∧
  ∃ clientContext,
    fst (AddEnvironment sampleCore "env C" sampleEnvConfigC succeeding) = AddOk clientContext.
Proof.
  split; [apply reachable_call, reachable_new|].
  apply (AddEnvironment_never_panics sampleCore "env C" sampleEnvConfigC succeeding);
    [apply reachable_call, reachable_new | reflexivity..].
Defined.

Lemma closed_core_inert_witness :
  reachable sampleCore ∧
  run (Close sampleCore)
      [CallAdd "env C" sampleEnvConfigC succeeding; CallRemove "sdk-A"; CallClose]
    = Close sampleCore ∧
  GetEnvironment (Close sampleCore) (SDKKey "sdk-A") = None.
Proof.
  split; [apply reachable_call, reachable_new|].
  destruct (closed_core_inert sampleCore
              [CallAdd "env C" sampleEnvConfigC succeeding; CallRemove "sdk-A"; CallClose])
    as (H1 & _); [apply reachable_call, reachable_new|].
  destruct (closed_core_inert sampleCore []) as (_ & H2 & _);
    [apply reachable_call, reachable_new|].
  split; [exact H1 | exact (H2 (SDKKey "sdk-A"))].
Defined.

Lemma no_resource_closed_twice_witness :
  reachable (Close (snd (RemoveEnvironment sampleCoreAB "sdk-A"))) ∧
  (closeCount (Close (snd (RemoveEnvironment sampleCoreAB "sdk-A"))) (CloseEnv 0) <= 1)%nat.
Proof.
  assert (Hr : reachable (Close (snd (RemoveEnvironment sampleCoreAB "sdk-A")))).
  { apply (reachable_call _ CallClose), (reachable_call _ (CallRemove "sdk-A")).
    apply reachable_sampleCoreAB. }
  split; [exact Hr|]. by apply no_resource_closed_twice.
Defined.

Lemma AddEnvironment_RemoveEnvironment_witness :
  reachable sampleCore ∧
  GetEnvironment sampleCore (SDKKey "sdk-C") = None ∧
  let r1 := snd (AddEnvironment sampleCore "env C" sampleEnvConfigC succeeding) in
  let r2 := snd (RemoveEnvironment r1 "sdk-C") in
  allEnvironments r2 = allEnvironments sampleCore ∧
  envsByMobileKey r2 = envsByMobileKey sampleCore ∧
  envsByEnvID r2 = envsByEnvID sampleCore.
Proof.
  split; [apply reachable_call, reachable_new|]. split; [reflexivity|].
  destruct (AddEnvironment_RemoveEnvironment sampleCore "env C" sampleEnvConfigC succeeding)
    as (_ & H1 & H2 & H3 & _);
    [apply reachable_call, reachable_new | reflexivity..|].
  done.
Defined.

Lemma GetEnvironment_frame_witness :
  reachable sampleCore ∧
  GetEnvironment (snd (AddEnvironment sampleCore "env C" sampleEnvConfigC succeeding))
                 (MobileKey "mob-A")
    = GetEnvironment sampleCore (MobileKey "mob-A") ∧
  GetEnvironment sampleCoreAB (SDKKey "sdk-A") = Some sampleEnvContext ∧
  GetEnvironment (snd (RemoveEnvironment sampleCoreAB "sdk-A")) (SDKKey "sdk-B")
    = GetEnvironment sampleCoreAB (SDKKey "sdk-B").
Proof.
  split; [apply reachable_call, reachable_new|].
  destruct (GetEnvironment_frame sampleCore) as [Hadd _];
    [apply reachable_call, reachable_new|].
  destruct (GetEnvironment_frame sampleCoreAB) as [_ Hrem];
    [apply reachable_sampleCoreAB|].
  split; [by apply Hadd|]. split; [reflexivity|].
  by apply (Hrem "sdk-A" sampleEnvContext).
Defined.

Lemma RemoveEnvironment_shared_credential_witness :
  reachable sampleCoreAB ∧
  GetEnvironment sampleCoreAB (SDKKey "sdk-A") = Some sampleEnvContext ∧
  GetEnvironment sampleCoreAB (MobileKey "mob-A") = Some sampleEnvContextB ∧
  sampleEnvContextB ≠ sampleEnvContext ∧
  let r' := snd (RemoveEnvironment sampleCoreAB "sdk-A") in
  GetEnvironment r' (MobileKey "mob-A") = None ∧
  live r' sampleEnvContextB ∧
  GetEnvironment r' (SDKKey "sdk-B") = Some sampleEnvContextB.
Proof.
  split; [apply reachable_sampleCoreAB|]. split; [reflexivity|].
  split; [reflexivity|]. split; [discriminate|].
  destruct (RemoveEnvironment_shared_credential sampleCoreAB "sdk-A"
              sampleEnvContext sampleEnvContextB (MobileKey "mob-A"))
    as (H1 & _ & H2 & H3);
    [apply reachable_sampleCoreAB | reflexivity | by left | reflexivity | discriminate |].
  split; [exact H1|]. split; [exact H2|]. by apply H3.
Defined.

Lemma NewRelayCore_failure_cleanup_witness :
  NewRelayCore (sampleCoreConfig failing)
    = NewCoreFailed (errCore (errNewClientContextFailed "env C" "no such flag service"))
                    [sampleEnvContext] [CloseEnv 0; CloseMetricsManager] ∧
  NoDup [CloseEnv 0; CloseMetricsManager] ∧
  CloseEnv (env_id sampleEnvContext) ∈ [CloseEnv 0; CloseMetricsManager].
Proof.
  assert (H : NewRelayCore (sampleCoreConfig failing)
    = NewCoreFailed (errCore (errNewClientContextFailed "env C" "no such flag service"))
                    [sampleEnvContext] [CloseEnv 0; CloseMetricsManager]) by reflexivity.
  split; [exact H|].
  destruct (NewRelayCore_failure_cleanup _ _ _ _ H) as (H1 & H2 & _).
  split; [exact H1|]. apply H2. apply list_elem_of_here.
Defined.

Lemma NewRelayCore_success_witness :
  ∃ r, NewRelayCore (sampleCoreConfig succeeding) = NewCoreOk r ∧
       closeCalls r = [] ∧
       is_Some (GetEnvironment r (SDKKey "sdk-C")).
Proof.
  destruct (NewRelayCore_success (sampleCoreConfig succeeding)) as (_ & Hok & Hprog).
  destruct Hprog as [r Hr]; [reflexivity | discriminate | reflexivity | by left | |].
  { repeat constructor. }
  exists r. split; [exact Hr|].
  destruct (Hok r Hr) as (_ & _ & Hcc & Hfound). split; [exact Hcc|].
  destruct (Hfound "env C" sampleEnvConfigC succeeding) as (env & Henv & _).
  - apply list_elem_of_further, list_elem_of_further, list_elem_of_here.
  - eauto.
Defined.

End relay_more.

(* ===================================================================== *)
(** * The event dispatcher: several requests                              *)
(* ===================================================================== *)

Section events_more.
Import events.
Context {Rand : Type} `{!Runtime Rand}.

(** ** Shared lemmas: one request *)

Lemma serve_unparsed (w : @World Rand) (req : Request) :
  parsedBatch req = None ->
  let r' := w_dispatcher (snd (serve w req)) in
  d_config r' = d_config (w_dispatcher w) ∧
  d_authKey r' = d_authKey (w_dispatcher w) ∧
  d_remotePath r' = d_remotePath (w_dispatcher w) ∧
  d_verbatimRelay r' = d_verbatimRelay (w_dispatcher w) ∧
  d_summarizingRelay r' = d_summarizingRelay (w_dispatcher w) ∧
  w_rGen (snd (serve w req)) = w_rGen w ∧
  w_globalLoggers (snd (serve w req)) = w_globalLoggers w.
Proof.
  unfold parsedBatch, serve, dispatchEvents.
  destruct (req_BodyErr req) as [err|]; [done|].
  destruct (String.length (req_Body req) =? 0)%nat eqn:E; [done|].
  rewrite decide_False.
  2:{ intros He. rewrite He in E. done. }
  simpl. unfold dispatchWorker.
  by destruct (json_Unmarshal (req_Body req)).
Qed.

Lemma serve_parsed (w : @World Rand) (req : Request) evts v :
  parsedBatch req = Some (evts, v) ->
  json_Unmarshal (req_Body req) = inr evts ∧
  v = payloadVersionOf req ∧
  snd (serve w req) = dispatchWorker w (req_Body req) req.
Proof.
  unfold parsedBatch, serve, dispatchEvents.
  destruct (req_BodyErr req) as [err|]; [done|].
  case_decide as Hb; [done|].
  destruct (String.length (req_Body req) =? 0)%nat eqn:E.
  { destruct (req_Body req); done. }
  destruct (json_Unmarshal (req_Body req)) as [err|evts'] eqn:Hp; [done|].
  by intros [= -> ->].
Qed.

Lemma getVerbatimRelay_fields (r : eventEndpointDispatcher) :
  let r1 := fst (getVerbatimRelay r) in
  d_config r1 = d_config r ∧ d_authKey r1 = d_authKey r ∧
  d_remotePath r1 = d_remotePath r ∧
  d_summarizingRelay r1 = d_summarizingRelay r.
Proof. unfold getVerbatimRelay. by destruct (d_verbatimRelay r). Qed.

Lemma getSummarizingRelay_fields (r : eventEndpointDispatcher) :
  let r1 := fst (getSummarizingRelay r) in
  d_config r1 = d_config r ∧ d_authKey r1 = d_authKey r ∧
  d_remotePath r1 = d_remotePath r ∧
  d_verbatimRelay r1 = d_verbatimRelay r.
Proof. unfold getSummarizingRelay. by destruct (d_summarizingRelay r). Qed.

Lemma theVerbatimRelay_ext (r r' : eventEndpointDispatcher) :
  d_config r' = d_config r -> d_authKey r' = d_authKey r ->
  d_remotePath r' = d_remotePath r -> d_verbatimRelay r' = d_verbatimRelay r ->
  theVerbatimRelay r' = theVerbatimRelay r.
Proof.
  unfold theVerbatimRelay, getVerbatimRelay. intros -> -> -> ->.
  by destruct (d_verbatimRelay r).
Qed.

Lemma theSummarizingRelay_ext (r r' : eventEndpointDispatcher) :
  d_config r' = d_config r -> d_authKey r' = d_authKey r ->
  d_remotePath r' = d_remotePath r -> d_summarizingRelay r' = d_summarizingRelay r ->
  theSummarizingRelay r' = theSummarizingRelay r.
Proof.
  unfold theSummarizingRelay, getSummarizingRelay. intros -> -> -> ->.
  by destruct (d_summarizingRelay r).
Qed.

(** What one request does to the relays, the generator and the global log. *)
Lemma serve_step (w : @World Rand) (req : Request) :
  let w' := snd (serve w req) in
  let r := w_dispatcher w in
  match parsedBatch req with
  | None =>
    theVerbatimRelay (w_dispatcher w') = theVerbatimRelay r ∧
    theSummarizingRelay (w_dispatcher w') = theSummarizingRelay r ∧
    w_rGen w' = w_rGen w ∧
    w_globalLoggers w' = w_globalLoggers w
  | Some (evts, v) =>
    w_globalLoggers w' =
      w_globalLoggers w ++ [LogReceived (Z.of_nat (length evts)) v (d_remotePath r)] ∧
    if SummaryEventsSchemaVersion <=? v then
      theVerbatimRelay (w_dispatcher w') =
        snd (fst (enqueue (theVerbatimRelay r) (w_rGen w) evts)) ∧
      w_rGen w' = snd (enqueue (theVerbatimRelay r) (w_rGen w) evts) ∧
      theSummarizingRelay (w_dispatcher w') = theSummarizingRelay r
    else
      theSummarizingRelay (w_dispatcher w') =
        summarizing_enqueue (theSummarizingRelay r) evts v ∧
      theVerbatimRelay (w_dispatcher w') = theVerbatimRelay r ∧
      w_rGen w' = w_rGen w
  end ∧
  d_config (w_dispatcher w') = d_config r ∧
  d_authKey (w_dispatcher w') = d_authKey r ∧
  d_remotePath (w_dispatcher w') = d_remotePath r.
Proof.
  intros w' r. subst w'.
  destruct (parsedBatch req) as [[evts v]|] eqn:Hb.
  - destruct (serve_parsed w req evts v Hb) as (Hparse & -> & ->).
    unfold dispatchWorker. rewrite Hparse. fold r.
    destruct (SummaryEventsSchemaVersion <=? payloadVersionOf req) eqn:Hv.
    + pose proof (getVerbatimRelay_fields r) as (Hc & Ha & Hp & Hs).
      unfold theVerbatimRelay at 2 3.
      destruct (getVerbatimRelay r) as [r1 vr1]. simpl in Hc, Ha, Hp, Hs. simpl.
      destruct (enqueue vr1 (w_rGen w) evts) as [[outcome vr2] rGen]. simpl.
      split; [split; [done|]|by destruct outcome].
      split; [by destruct outcome|]. split; [done|].
      apply theSummarizingRelay_ext; by destruct outcome.
    + pose proof (getSummarizingRelay_fields r) as (Hc & Ha & Hp & Hs).
      unfold theSummarizingRelay at 2.
      destruct (getSummarizingRelay r) as [r1 sr1]. simpl in Hc, Ha, Hp, Hs. simpl.
      split; [|done]. split; [done|]. split; [done|]. split; [|done].
      by apply theVerbatimRelay_ext.
  - destruct (serve_unparsed w req Hb) as (Hc & Ha & Hp & Hv & Hs & Hg & Hl).
    split_and!; try done.
    + by apply theVerbatimRelay_ext.
    + by apply theSummarizingRelay_ext.
Qed.

Lemma serveAll_cons (w : @World Rand) req reqs :
  serveAll w (req :: reqs) = serveAll (snd (serve w req)) reqs.
Proof. done. Qed.

Lemma enqueue_forwardsAll (er : eventVerbatimRelay) (rGen : Rand) evts :
  forwardsAll er ->
  forwardsAll (snd (fst (enqueue er rGen evts))) ∧
  vr_raw (snd (fst (enqueue er rGen evts))) = vr_raw er ++ [evts] ∧
  snd (enqueue er rGen evts) = rGen.
Proof.
  intros (Hs & Hn & [p Hp]). unfold enqueue. rewrite Hs. simpl.
  rewrite (proj2 (Z.ltb_ge 0 _) Hn). simpl. rewrite Hp. simpl.
  split; [|split; [|done]].
  - unfold forwardsAll. simpl. eauto.
  - unfold vr_raw. simpl. by rewrite Hp.
Qed.

Lemma enqueue_not_sending (er : eventVerbatimRelay) (rGen : Rand) evts :
  SendEvents (vr_config er) = false -> enqueue er rGen evts = (Returned, er, rGen).
Proof. intros H. unfold enqueue. by rewrite H. Qed.

(** ** Requests served one after the other *)

(** Served one after the other, the requests hand their batches to the
    publisher in request order when the verbatim relay forwards every
    batch. *)
Lemma serveAll_verbatim (w : @World Rand) (reqs : list Request) :
  forwardsAll (theVerbatimRelay (w_dispatcher w)) ->
  vr_raw (theVerbatimRelay (w_dispatcher (serveAll w reqs)))
    = vr_raw (theVerbatimRelay (w_dispatcher w)) ++ verbatimBatches reqs ∧
  w_rGen (serveAll w reqs) = w_rGen w.
Proof.
  revert w. induction reqs as [|req reqs IH]; intros w Hf.
  { simpl. by rewrite app_nil_r. }
  rewrite serveAll_cons. pose proof (serve_step w req) as [Hstep _].
  unfold verbatimBatches. simpl omap. fold (verbatimBatches reqs).
  destruct (parsedBatch req) as [[evts v]|].
  - destruct Hstep as [_ Hstep].
    destruct (SummaryEventsSchemaVersion <=? v).
    + destruct Hstep as (Hvr & Hg & _).
      destruct (enqueue_forwardsAll _ (w_rGen w) evts Hf) as (Hf' & Hraw & Hg').
      rewrite <- Hvr in Hf', Hraw.
      destruct (IH _ Hf') as [-> ->].
      rewrite Hraw, Hg, Hg'. by rewrite <- app_assoc.
    + destruct Hstep as (_ & Hvr & Hg).
      rewrite <- Hvr in Hf. destruct (IH _ Hf) as [-> ->]. by rewrite Hvr, Hg.
  - destruct Hstep as (Hvr & _ & Hg & _).
    rewrite <- Hvr in Hf. destruct (IH _ Hf) as [-> ->]. by rewrite Hvr, Hg.
Qed.

Lemma serveAll_summarized (w : @World Rand) (reqs : list Request) :
  sr_enqueued (theSummarizingRelay (w_dispatcher (serveAll w reqs)))
    = sr_enqueued (theSummarizingRelay (w_dispatcher w)) ++ summarizedBatches reqs.
Proof.
  revert w. induction reqs as [|req reqs IH]; intros w.
  { simpl. by rewrite app_nil_r. }
  rewrite serveAll_cons, IH. pose proof (serve_step w req) as [Hstep _].
  unfold summarizedBatches. simpl omap. fold (summarizedBatches reqs).
  destruct (parsedBatch req) as [[evts v]|].
  + destruct Hstep as [_ Hstep].
    destruct (SummaryEventsSchemaVersion <=? v).
    * destruct Hstep as (_ & _ & ->). done.
    * destruct Hstep as (-> & _). simpl. by rewrite <- app_assoc.
  + destruct Hstep as (_ & -> & _). done.
Qed.

Lemma summarizedBatches_versions (reqs : list Request) :
  Forall (fun batch => snd batch ≠ 0 ∧ snd batch < 3) (summarizedBatches reqs).
Proof.
  induction reqs as [|req reqs IH]; [constructor|].
  unfold summarizedBatches. simpl omap. fold (summarizedBatches reqs).
  destruct (parsedBatch req) as [[evts v]|] eqn:Hb; [|done].
  destruct (SummaryEventsSchemaVersion <=? v) eqn:Hv; [done|].
  constructor; [|done]. simpl.
  apply Z.leb_gt in Hv. unfold SummaryEventsSchemaVersion in Hv. split; [|done].
  revert Hb. unfold parsedBatch. repeat case_match; try done.
  intros [= _ <-]. unfold payloadVersionOf. case_match; [done|].
  by apply Z.eqb_neq.
Qed.

Lemma serveAll_received (w : @World Rand) (reqs : list Request) :
  w_globalLoggers (serveAll w reqs)
    = w_globalLoggers w
        ++ (receivedEntry (d_remotePath (w_dispatcher w)) <$> omap parsedBatch reqs).
Proof.
  revert w. induction reqs as [|req reqs IH]; intros w.
  { simpl. by rewrite app_nil_r. }
  rewrite serveAll_cons, IH. pose proof (serve_step w req) as (Hstep & _ & _ & ->).
  simpl omap. destruct (parsedBatch req) as [[evts v]|].
  - destruct Hstep as [-> _]. simpl. by rewrite <- app_assoc.
  - by destruct Hstep as (_ & _ & _ & ->).
Qed.

(** ** Requests served under any schedule *)

Lemma dispatchEvents_started (w : @World Rand) (req : Request) :
  match snd (dispatchEvents w newResponseWriter req) with
  | Some body =>
    req_BodyErr req = None ∧ req_Body req ≠ "" ∧ body = req_Body req ∧
    snd (fst (dispatchEvents w newResponseWriter req)) = w
  | None =>
    snd (fst (dispatchEvents w newResponseWriter req)) = snd (serve w req)
  end.
Proof.
  unfold serve, dispatchEvents. destruct (req_BodyErr req) as [err|]; [done|].
  destruct (String.length (req_Body req) =? 0)%nat eqn:E; [done|]. simpl.
  split_and!; try done. intros He. by rewrite He in E.
Qed.

(** One step of the scheduler completes no request or one, and leaves the
    world as serving the completed request on its own does. *)
Lemma sched_step_serve (s : @Server Rand) (c : Choice) :
  wellStarted s ->
  wellStarted (sched_step s c) ∧
  ∃ completed,
    completed ++ outstanding (sched_step s c) ≡ₚ outstanding s ∧
    sv_world (sched_step s c) = serveAll (sv_world s) completed.
Proof.
  intros Hwf. destruct c as [|i]; simpl.
  - destruct (sv_incoming s) as [|req incoming] eqn:Hin.
    { split; [done|]. by exists []. }
    pose proof (dispatchEvents_started (sv_world s) req) as Hd.
    destruct (dispatchEvents (sv_world s) newResponseWriter req)
      as [[rw w'] [body|]]; simpl in Hd.
    + destruct Hd as (Herr & Hbody & -> & ->). split.
      * unfold wellStarted. simpl. apply Forall_app. split; [done|].
        by repeat constructor.
      * exists []. split; [|done].
        unfold outstanding. simpl. rewrite Hin, fmap_app. simpl.
        rewrite <- app_assoc. done.
    + split; [done|]. exists [req]. split; [|by rewrite Hd].
      unfold outstanding. simpl. rewrite Hin.
      by rewrite <- Permutation_middle.
  - destruct (sv_goroutines s !! i) as [[body req]|] eqn:Hi.
    2:{ split; [done|]. by exists []. }
    split; [by apply Forall_delete|].
    exists [req]. split.
    + unfold outstanding. simpl.
      rewrite list_fmap_delete.
      assert ((snd <$> sv_goroutines s) !! i = Some req) as Hi'.
      { by rewrite list_lookup_fmap, Hi. }
      apply (Permutation_app_tail (sv_incoming s)
               (l := req :: delete i (snd <$> sv_goroutines s))).
      symmetry. by apply delete_Permutation.
    + unfold wellStarted in Hwf. rewrite Forall_forall in Hwf.
      destruct (Hwf (body, req)) as (Herr & Hbody & Hcap).
      { by eapply list_elem_of_lookup_2. }
      simpl in Herr, Hbody, Hcap. subst body. simpl.
      by rewrite serve_accepted.
Qed.

(** Every run leaves the world as serving, one after the other and in some
    order, the requests completed so far. *)
Lemma schedule_serveAll (s : @Server Rand) (choices : list Choice) :
  wellStarted s ->
  wellStarted (schedule s choices) ∧
  ∃ completed,
    completed ++ outstanding (schedule s choices) ≡ₚ outstanding s ∧
    sv_world (schedule s choices) = serveAll (sv_world s) completed.
Proof.
  revert s. induction choices as [|c choices IH]; intros s Hwf.
  { split; [done|]. by exists []. }
  destruct (sched_step_serve s c Hwf) as (Hwf1 & done1 & Hp1 & Hw1).
  destruct (IH _ Hwf1) as (Hwf2 & done2 & Hp2 & Hw2).
  split; [done|]. exists (done1 ++ done2). split.
  - rewrite <- Hp1, <- Hp2. by rewrite <- app_assoc.
  - change (schedule s (c :: choices)) with (schedule (sched_step s c) choices).
    rewrite Hw2, Hw1. unfold serveAll. by rewrite foldl_app.
Qed.

(** At the end of a run the requests have been completed in some order. *)
Lemma quiescent_serveAll (w : @World Rand) (reqs : list Request) (choices : list Choice) :
  quiescent (schedule (startServer w reqs) choices) ->
  ∃ completed,
    completed ≡ₚ reqs ∧
    sv_world (schedule (startServer w reqs) choices) = serveAll w completed.
Proof.
  intros [Hin Hgo].
  destruct (schedule_serveAll (startServer w reqs) choices) as (_ & completed & Hp & Hw).
  { constructor. }
  exists completed. split; [|done].
  unfold outstanding in Hp. rewrite Hin, Hgo in Hp. simpl in Hp.
  by rewrite app_nil_r in Hp.
Qed.

(** serveAll is the run of the schedule [sequential]. *)
Lemma schedule_sequential (w : @World Rand) (reqs : list Request)
    (responses : list ResponseWriter) :
  let s := {| sv_incoming := reqs; sv_goroutines := [];
              sv_responses := responses; sv_world := w |} in
  quiescent (schedule s (sequential reqs)) ∧
  sv_world (schedule s (sequential reqs)) = serveAll w reqs.
Proof.
  revert w responses. induction reqs as [|req reqs IH]; intros w responses.
  { simpl. by split. }
  cbv zeta. rewrite serveAll_cons. unfold schedule in *. simpl.
  unfold serve, startsGoroutine, dispatchEvents.
  destruct (req_BodyErr req) as [err|]; [by apply IH|].
  destruct (String.length (req_Body req) =? 0)%nat; simpl; by apply IH.
Qed.

(** ** X11 *)

(** X11.  Under any schedule of the handlers and their goroutines, when the
    verbatim relay of a dispatcher forwards every batch (SendEvents set, no
    sampling, a publisher), then once every request has been handled and
    every goroutine has run the publisher has received, after what it had
    received before, the parsed batches of the requests with a readable,
    non-empty, well-formed body and a payload version of at least 3, one
    PublishRaw call each, in some order (the order of the requests is not
    kept); and the generator has not been consulted. *)
Theorem verbatim_batches_any_schedule (w : @World Rand) (reqs : list Request)
    (choices : list Choice) :
  forwardsAll (theVerbatimRelay (w_dispatcher w)) ->
  quiescent (schedule (startServer w reqs) choices) ->
  let w' := sv_world (schedule (startServer w reqs) choices) in
  (∃ received,
     received ≡ₚ verbatimBatches reqs ∧
     vr_raw (theVerbatimRelay (w_dispatcher w'))
       = vr_raw (theVerbatimRelay (w_dispatcher w)) ++ received) ∧
  w_rGen w' = w_rGen w.
Proof.
  intros Hf Hq w'.
  destruct (quiescent_serveAll w reqs choices Hq) as (completed & Hp & Hw).
  subst w'. rewrite Hw.
  destruct (serveAll_verbatim w completed Hf) as [Hraw Hg].
  split; [|done]. exists (verbatimBatches completed). split; [|done].
  unfold verbatimBatches. by rewrite Hp.
Qed.

(** ** X12 *)

(** X12.  Under any schedule, once every request has been handled and every
    goroutine has run, the summarizing relay has received, after what it
    had received before, the parsed batches with a payload version below
    3, each with its version, in some order; a version passed to it is
    never 0 (it may be negative). *)
Theorem summarized_batches_any_schedule (w : @World Rand) (reqs : list Request)
    (choices : list Choice) :
  quiescent (schedule (startServer w reqs) choices) ->
  let w' := sv_world (schedule (startServer w reqs) choices) in
  ∃ received,
    received ≡ₚ summarizedBatches reqs ∧
    sr_enqueued (theSummarizingRelay (w_dispatcher w'))
      = sr_enqueued (theSummarizingRelay (w_dispatcher w)) ++ received ∧
    Forall (fun batch => snd batch ≠ 0 ∧ snd batch < 3) received.
Proof.
  intros Hq w'.
  destruct (quiescent_serveAll w reqs choices Hq) as (completed & Hp & Hw).
  subst w'. rewrite Hw.
  exists (summarizedBatches completed). split_and!.
  - unfold summarizedBatches. by rewrite Hp.
  - apply serveAll_summarized.
  - apply summarizedBatches_versions.
Qed.

(** ** X13 *)

(** X13.  With SendEvents = false in the verbatim relay of a dispatcher, no
    sequence of requests makes it call PublishRaw or consult the generator:
    the relay and the generator are afterwards what they were. *)
Theorem nothing_published_when_not_sending (w : @World Rand) (reqs : list Request) :
  SendEvents (vr_config (theVerbatimRelay (w_dispatcher w))) = false ->
  theVerbatimRelay (w_dispatcher (serveAll w reqs)) = theVerbatimRelay (w_dispatcher w) ∧
  w_rGen (serveAll w reqs) = w_rGen w.
Proof.
  revert w. induction reqs as [|req reqs IH]; intros w Hs; [done|].
  rewrite serveAll_cons. pose proof (serve_step w req) as [Hstep _].
  assert (theVerbatimRelay (w_dispatcher (snd (serve w req)))
            = theVerbatimRelay (w_dispatcher w) ∧
          w_rGen (snd (serve w req)) = w_rGen w) as [Hvr Hg].
  { destruct (parsedBatch req) as [[evts v]|].
    - destruct Hstep as [_ Hstep]. destruct (SummaryEventsSchemaVersion <=? v).
      + destruct Hstep as (-> & -> & _). by rewrite enqueue_not_sending.
      + by destruct Hstep as (_ & -> & ->).
    - by destruct Hstep as (-> & _ & -> & _). }
  rewrite <- Hvr in Hs. destruct (IH _ Hs) as [-> ->]. done.
Qed.

(** ** X18 *)

Lemma serveAll_not_sending (w : @World Rand) (reqs : list Request) :
  SendEvents (vr_config (theVerbatimRelay (w_dispatcher w))) = false ->
  theVerbatimRelay (w_dispatcher (serveAll w reqs)) = theVerbatimRelay (w_dispatcher w) ∧
  w_rGen (serveAll w reqs) = w_rGen w.
Proof.
  revert w. induction reqs as [|req reqs IH]; intros w Hs; [done|].
  rewrite serveAll_cons. pose proof (serve_step w req) as [Hstep _].
  assert (theVerbatimRelay (w_dispatcher (snd (serve w req)))
            = theVerbatimRelay (w_dispatcher w) ∧
          w_rGen (snd (serve w req)) = w_rGen w) as [Hvr Hg].
  { destruct (parsedBatch req) as [[evts v]|].
    - destruct Hstep as [_ Hstep]. destruct (SummaryEventsSchemaVersion <=? v).
      + destruct Hstep as (-> & -> & _). by rewrite enqueue_not_sending.
      + by destruct Hstep as (_ & -> & ->).
    - by destruct Hstep as (-> & _ & -> & _). }
  rewrite <- Hvr in Hs. destruct (IH _ Hs) as [-> ->]. done.
Qed.

(** X18.  With SendEvents = false in the verbatim relay of a dispatcher,
    under any schedule of the handlers and their goroutines and at every
    moment of the run, the relay has made no PublishRaw call and the
    generator has not been consulted: both are what they were at the
    start. *)
Theorem nothing_published_any_schedule (w : @World Rand) (reqs : list Request)
    (choices : list Choice) :
  SendEvents (vr_config (theVerbatimRelay (w_dispatcher w))) = false ->
  let w' := sv_world (schedule (startServer w reqs) choices) in
  theVerbatimRelay (w_dispatcher w') = theVerbatimRelay (w_dispatcher w) ∧
  w_rGen w' = w_rGen w.
Proof.
  intros Hs w'.
  destruct (schedule_serveAll (startServer w reqs) choices) as (_ & completed & _ & Hw).
  { constructor. }
  subst w'. rewrite Hw. by apply serveAll_not_sending.
Qed.

(** ** X14 *)

(** X14.  Under any schedule, once every request has been handled and every
    goroutine has run, the global log has received one entry for every
    batch that parsed, whichever relay it went to, with the number of
    records, the payload version and the remote path of the dispatcher, in
    some order; requests without a parsed batch leave no entry there. *)
Theorem received_log_any_schedule (w : @World Rand) (reqs : list Request)
    (choices : list Choice) :
  quiescent (schedule (startServer w reqs) choices) ->
  let w' := sv_world (schedule (startServer w reqs) choices) in
  ∃ entries,
    entries ≡ₚ receivedEntry (d_remotePath (w_dispatcher w)) <$> omap parsedBatch reqs ∧
    w_globalLoggers w' = w_globalLoggers w ++ entries.
Proof.
  intros Hq w'.
  destruct (quiescent_serveAll w reqs choices Hq) as (completed & Hp & Hw).
  subst w'. rewrite Hw.
  exists (receivedEntry (d_remotePath (w_dispatcher w)) <$> omap parsedBatch completed).
  split; [by rewrite Hp|]. apply serveAll_received.
Qed.

(** ** X15 *)

(** X15.  A sampling interval of 1 samples nothing away: when the generator
    keeps Int31n(n) within [0, n), SendEvents is set and the relay has a
    publisher, enqueue with SamplingInterval = 1 calls PublishRaw with the
    batch. *)
Theorem enqueue_sampling_interval_one (er : eventVerbatimRelay) (rGen : Rand)
    (evts : list RawMessage) :
  (∀ g n, 0 < n -> 0 <= fst (Int31n g n) < n) ->
  SendEvents (vr_config er) = true ->
  SamplingInterval (vr_config er) = 1 ->
  is_Some (vr_publisher er) ->
  fst (fst (enqueue er rGen evts)) = Returned ∧
  vr_raw (snd (fst (enqueue er rGen evts))) = vr_raw er ++ [evts].
Proof.
  intros Hrange Hs Hn [p Hp]. unfold enqueue. rewrite Hs, Hn. simpl.
  pose proof (Hrange rGen 1 ltac:(lia)) as Hv.
  destruct (Int31n rGen 1) as [v g']. simpl in Hv.
  assert (v = 0) as -> by lia. simpl. rewrite Hp. simpl.
  split; [done|]. unfold vr_raw. simpl. by rewrite Hp.
Qed.

(** ** X16 *)

Lemma append_String (c : ascii) (s t : string) :
  String c s +:+ t = String c (s +:+ t).
Proof. reflexivity. Qed.

Lemma append_String_assoc (s t u : string) : (s +:+ t) +:+ u = s +:+ (t +:+ u).
Proof.
  induction s as [|c s IH]; [reflexivity|].
  rewrite !append_String. f_equal. exact IH.
Qed.

Lemma append_empty_r (s : string) : s +:+ "" = s.
Proof.
  induction s as [|c s IH]; [reflexivity|]. rewrite append_String. by f_equal.
Qed.

Lemma TrimRight_slash_app_slash (s : string) :
  TrimRight_slash (s +:+ "/") = TrimRight_slash s.
Proof.
  induction s as [|c s IH]; [reflexivity|].
  rewrite append_String. simpl. by rewrite IH.
Qed.

Lemma TrimRight_slash_app_slashes (n : nat) (s : string) :
  TrimRight_slash (s +:+ slashes n) = TrimRight_slash s.
Proof.
  revert s. induction n as [|n IH]; intros s; simpl.
  - by rewrite append_empty_r.
  - change (String "/" (slashes n)) with ("/" +:+ slashes n).
    rewrite <- append_String_assoc, IH. apply TrimRight_slash_app_slash.
Qed.

Lemma byte_val_slash (c : ascii) : byte_val c = 47 -> c = "/"%char.
Proof.
  unfold byte_val. intros Hc.
  apply (f_equal Z.to_N) in Hc. rewrite N2Z.id in Hc.
  apply (f_equal ascii_of_N) in Hc. by rewrite ascii_N_embedding in Hc.
Qed.

Lemma TrimRight_slash_decompose (s : string) :
  ∃ n, s = TrimRight_slash s +:+ slashes n ∧
       (TrimRight_slash s = "" ∨
        ∃ t c, TrimRight_slash s = t +:+ String c "" ∧ byte_val c ≠ 47).
Proof.
  induction s as [|c s (n & Hs & Hend)].
  - exists O. split; [reflexivity | by left].
  - simpl TrimRight_slash. destruct (TrimRight_slash s) as [|c' t'] eqn:E.
    + change ("" +:+ slashes n) with (slashes n) in Hs.
      destruct (byte_val c =? 47) eqn:Hc.
      * apply Z.eqb_eq, byte_val_slash in Hc. subst c.
        exists (S n). split; [|by left].
        change ("" +:+ slashes (S n)) with (String "/" (slashes n)). by rewrite <- Hs.
      * exists n. split.
        { rewrite append_String. change ("" +:+ slashes n) with (slashes n).
          by rewrite <- Hs. }
        right. exists "", c. split; [reflexivity | by apply Z.eqb_neq].
    + exists n. split; [rewrite append_String; by rewrite <- Hs|].
      right. destruct Hend as [?|(t & c0 & Ht & Hc0)]; [done|].
      exists (String c t), c0. split; [|done].
      rewrite append_String. by rewrite Ht.
Qed.

(** X16.  Trailing slashes of the configured events URI do not matter.
    The endpoint the verbatim relay's publisher is created for is the
    events URI without its trailing slashes, followed by the remote path:
    the URI is that prefix followed by slashes only, the prefix does not
    end in a slash, and adding any number of slashes to the configured URI
    gives the same publisher.  A positive FlushIntervalSecs is passed on as
    a flush interval of that many seconds in nanoseconds, computed in
    int64: up to 9223372036 seconds it is the exact product, beyond that it
    wraps around. *)
Theorem endpoint_ignores_trailing_slashes (sdkKey : string) (config : Config)
    (remotePath : string) (n : nat) :
  vr_publisher (newEventVerbatimRelay sdkKey
                  (set_EventsUri config (EventsUri config +:+ slashes n)) remotePath)
    = vr_publisher (newEventVerbatimRelay sdkKey config remotePath) ∧
  (∃ prefix k,
    EventsUri config = prefix +:+ slashes k ∧
    (prefix = "" ∨ ∃ t c, prefix = t +:+ String c "" ∧ byte_val c ≠ 47) ∧
    vr_publisher (newEventVerbatimRelay sdkKey config remotePath)
      = NewHttpEventPublisher sdkKey
          ([OptionCapacity (Capacity config);
            OptionEndpointURI (prefix +:+ remotePath);
            OptionClient]
           ++ if 0 <? FlushIntervalSecs config
              then [OptionFlushInterval
                      ((FlushIntervalSecs config * 1000000000 + 2 ^ 63) mod 2 ^ 64
                       - 2 ^ 63)]
              else [])) ∧
  (0 < FlushIntervalSecs config <= 9223372036 ->
   (FlushIntervalSecs config * 1000000000 + 2 ^ 63) mod 2 ^ 64 - 2 ^ 63
     = FlushIntervalSecs config * 1000000000).
Proof.
  split_and!.
  - unfold newEventVerbatimRelay. simpl. by rewrite TrimRight_slash_app_slashes.
  - destruct (TrimRight_slash_decompose (EventsUri config)) as (k & Hk & Hend).
    exists (TrimRight_slash (EventsUri config)), k. split_and!; [done..|].
    unfold newEventVerbatimRelay. cbv zeta.
    destruct (0 <? FlushIntervalSecs config); [reflexivity|].
    cbn [vr_publisher]. by rewrite app_nil_r.
  - intros Hsecs.
    change (2 ^ 63) with 9223372036854775808.
    change (2 ^ 64) with 18446744073709551616.
    rewrite Z.mod_small; lia.
Qed.

(** ** X17 *)

Lemma byte_val_digitChar (d : Z) : isDigit d -> byte_val (digitChar d) = 48 + d.
Proof.
  intros Hd.
  assert (d = 0 ∨ d = 1 ∨ d = 2 ∨ d = 3 ∨ d = 4 ∨ d = 5 ∨ d = 6 ∨ d = 7 ∨ d = 8 ∨ d = 9)
    as Hcases by (unfold isDigit in Hd; lia).
  repeat (destruct Hcases as [->|Hcases]; [reflexivity|]). by subst.
Qed.

Lemma length_digitsString (ds : list Z) : String.length (digitsString ds) = length ds.
Proof. induction ds as [|d ds IH]; simpl; [done|]. by rewrite IH. Qed.

Lemma digits_foldl_bounds (ds : list Z) :
  Forall isDigit ds ->
  ∀ n, 0 <= n ->
    n <= foldl (fun acc d => acc * 10 + d) n ds
      <= n * 10 ^ Z.of_nat (length ds) + 10 ^ Z.of_nat (length ds) - 1.
Proof.
  induction 1 as [|d ds Hd _ IH]; intros n Hn; simpl foldl; simpl length.
  - simpl. lia.
  - unfold isDigit in Hd.
    specialize (IH (n * 10 + d) ltac:(lia)).
    rewrite Nat2Z.inj_succ, Z.pow_succ_r by lia.
    assert (0 < 10 ^ Z.of_nat (length ds)) by (apply Z.pow_pos_nonneg; lia).
    nia.
Qed.

Lemma atoi_fast_loop_digits (w : Z) (ds : list Z) :
  1 <= w ->
  Forall isDigit ds ->
  ∀ n, 0 <= n ->
    foldl (fun acc d => acc * 10 + d) n ds < 2 ^ (w - 1) ->
    atoi_fast_loop w (digitsString ds) n = Some (foldl (fun acc d => acc * 10 + d) n ds).
Proof.
  intros Hw. induction 1 as [|d ds Hd Hds IH]; intros n Hn Hbound; simpl; [done|].
  rewrite (byte_val_digitChar d Hd).
  replace (48 + d - 48) with d by lia.
  unfold wrap_uint. rewrite Z.mod_small by (unfold isDigit in Hd; lia).
  rewrite (proj2 (Z.ltb_ge 9 d)) by (unfold isDigit in Hd; lia).
  simpl in Hbound.
  pose proof (digits_foldl_bounds ds Hds (n * 10 + d)
                ltac:(unfold isDigit in Hd; lia)) as [Hlow _].
  rewrite wrap_int_small by (unfold isDigit in Hd; lia).
  apply IH; [unfold isDigit in Hd; lia | done].
Qed.

Lemma Atoi_digits (w : Z) (ds : list Z) :
  w = 64 ∨ w = 32 ->
  Forall isDigit ds ->
  (0 < length ds < 10)%nat ->
  Atoi w (digitsString ds) = (digitsValue ds, None).
Proof.
  intros Hw Hds Hlen. unfold Atoi. rewrite length_digitsString.
  assert ((w =? 32) && (0 <? Z.of_nat (length ds)) && (Z.of_nat (length ds) <? 10)
          || (w =? 64) && (0 <? Z.of_nat (length ds)) && (Z.of_nat (length ds) <? 19)
          = true) as ->.
  { destruct Hw as [-> | ->]; simpl;
      rewrite (proj2 (Z.ltb_lt 0 _)) by lia; simpl;
      rewrite (proj2 (Z.ltb_lt (Z.of_nat (length ds)) _)) by lia; reflexivity. }
  destruct ds as [|d ds]; [simpl in Hlen; lia|].
  simpl digitsString. cbv beta iota.
  assert (Hd : isDigit d) by (by inversion Hds).
  assert (is_sign (digitChar d) = false) as ->.
  { unfold is_sign. rewrite (byte_val_digitChar d Hd).
    unfold isDigit in Hd. apply orb_false_iff. split; apply Z.eqb_neq; lia. }
  assert (is_minus (digitChar d) = false) as ->.
  { unfold is_minus. rewrite (byte_val_digitChar d Hd).
    unfold isDigit in Hd. apply Z.eqb_neq; lia. }
  simpl andb. cbv iota.
  change (String (digitChar d) (digitsString ds)) with (digitsString (d :: ds)).
  pose proof (digits_foldl_bounds (d :: ds) Hds 0 ltac:(lia)) as [_ Hup].
  assert (10 ^ Z.of_nat (length (d :: ds)) <= 10 ^ 9) as Hpow.
  { apply Z.pow_le_mono_r; lia. }
  rewrite atoi_fast_loop_digits; [done| |done|lia|].
  - destruct Hw as [-> | ->]; lia.
  - unfold digitsValue in *. destruct Hw as [-> | ->]; simpl Z.sub;
      [assert (10 ^ 9 < 2 ^ 63) by (vm_compute; done)
      |assert (10 ^ 9 < 2 ^ 31) by (vm_compute; done)]; lia.
Qed.

(** X17.  The schema header is read as a decimal numeral.  On a platform
    with 64-bit or 32-bit int, a header made of one to nine decimal digits
    gives the number those digits denote as payload version, except that 0
    gives 1; so such a batch goes to the verbatim relay exactly when the
    number is at least 3. *)
Theorem payloadVersion_decimal (req : Request) (ds : list Z) :
  intSize = 64 ∨ intSize = 32 ->
  Header_Get (req_Header req) EventSchemaHeader = digitsString ds ->
  Forall isDigit ds ->
  (0 < length ds < 10)%nat ->
  payloadVersionOf req = (if digitsValue ds =? 0 then 1 else digitsValue ds) ∧
  ((SummaryEventsSchemaVersion <=? payloadVersionOf req) = true ↔ 3 <= digitsValue ds).
Proof.
  intros Hw Hh Hds Hlen.
  assert (Hv : payloadVersionOf req = if digitsValue ds =? 0 then 1 else digitsValue ds).
  { unfold payloadVersionOf. rewrite Hh, (Atoi_digits intSize ds Hw Hds Hlen). done. }
  split; [done|]. rewrite Hv. unfold SummaryEventsSchemaVersion.
  rewrite Z.leb_le. destruct (digitsValue ds =? 0) eqn:E.
  - apply Z.eqb_eq in E. lia.
  - done.
Qed.

End events_more.

(** ** The statements above on the sample runtime *)

Section events_more_samples.
Import events.
#[local] Existing Instance sampleRuntime.

(** The order in which batches reach the publisher depends on the
    schedule: served one after the other the sample requests deliver the
    batch of the first request first, under [sampleChoices] that of the
    fourth. *)
Example publish_order_depends_on_schedule :
  let s0 := startServer (sampleWorld "sdk-A") sampleRequests in
  sv_world (schedule s0 (sequential sampleRequests))
    = serveAll (sampleWorld "sdk-A") sampleRequests ∧
  vr_raw (theVerbatimRelay (w_dispatcher (sv_world
            (schedule s0 (sequential sampleRequests))))) = [["{}"]; []] ∧
  vr_raw (theVerbatimRelay (w_dispatcher (sv_world (schedule s0 sampleChoices))))
    = [[]; ["{}"]].
Proof. vm_compute. repeat split. Qed.

Lemma verbatim_batches_any_schedule_witness :
  let s := schedule (startServer (sampleWorld "sdk-A") sampleRequests) sampleChoices in
  forwardsAll (theVerbatimRelay (w_dispatcher (sampleWorld "sdk-A"))) ∧
  quiescent s ∧
  verbatimBatches sampleRequests = [["{}"]; []] ∧
  (∃ received,
     received ≡ₚ [["{}"]; []] ∧
     vr_raw (theVerbatimRelay (w_dispatcher (sv_world s))) = received) ∧
  w_rGen (sv_world s) = 1.
Proof.
  intros s.
  assert (Hf : forwardsAll (theVerbatimRelay (w_dispatcher (sampleWorld "sdk-A")))).
  { split; [reflexivity|]. split; [discriminate|]. eexists. reflexivity. }
  assert (Hq : quiescent s) by (split; reflexivity).
  split; [exact Hf|]. split; [exact Hq|]. split; [reflexivity|].
  exact (verbatim_batches_any_schedule (sampleWorld "sdk-A") sampleRequests
           sampleChoices Hf Hq).
Defined.

Lemma summarized_batches_any_schedule_witness :
  let s := schedule (startServer (sampleWorld "sdk-A") sampleRequests) sampleChoices in
  quiescent s ∧
  ∃ received,
    received ≡ₚ [(["{}"], 1)] ∧
    sr_enqueued (theSummarizingRelay (w_dispatcher (sv_world s))) = received ∧
    Forall (fun batch => snd batch ≠ 0 ∧ snd batch < 3) received.
Proof.
  intros s.
  assert (Hq : quiescent s) by (split; reflexivity).
  split; [exact Hq|].
  exact (summarized_batches_any_schedule (sampleWorld "sdk-A") sampleRequests
           sampleChoices Hq).
Defined.

Lemma received_log_any_schedule_witness :
  let s := schedule (startServer (sampleWorld "sdk-A") sampleRequests) sampleChoices in
  quiescent s ∧
  ∃ entries,
    entries ≡ₚ [LogReceived 1 3 "/bulk"; LogReceived 1 1 "/bulk"; LogReceived 0 4 "/bulk"] ∧
    w_globalLoggers (sv_world s) = entries.
Proof.
  intros s.
  assert (Hq : quiescent s) by (split; reflexivity).
  split; [exact Hq|].
  exact (received_log_any_schedule (sampleWorld "sdk-A") sampleRequests
           sampleChoices Hq).
Defined.

Lemma nothing_published_any_schedule_witness :
  SendEvents (vr_config (theVerbatimRelay (w_dispatcher sampleWorldNotSending))) = false ∧
  vr_raw (theVerbatimRelay (w_dispatcher (sv_world
            (schedule (startServer sampleWorldNotSending sampleRequests) sampleChoices))))
    = [] ∧
  w_rGen (sv_world (schedule (startServer sampleWorldNotSending sampleRequests)
                             sampleChoices)) = 1.
Proof.
  split; [reflexivity|].
  destruct (nothing_published_any_schedule sampleWorldNotSending sampleRequests
              sampleChoices eq_refl) as [H1 H2].
  split; [by rewrite H1 | exact H2].
Defined.

Lemma endpoint_ignores_trailing_slashes_witness :
  0 < FlushIntervalSecs (sampleConfig true 0) <= 9223372036 ∧
  vr_publisher (newEventVerbatimRelay "sdk-A"
                  (set_EventsUri (sampleConfig true 0) "https://events.example.com///")
                  "/bulk")
    = vr_publisher (sampleRelay true 0) ∧
  (5 * 1000000000 + 2 ^ 63) mod 2 ^ 64 - 2 ^ 63 = 5000000000.
Proof.
  destruct (endpoint_ignores_trailing_slashes "sdk-A" (sampleConfig true 0) "/bulk" 2)
    as (Hsame & _ & Hexact).
  assert (Hsecs : 0 < FlushIntervalSecs (sampleConfig true 0) <= 9223372036)
    by (simpl; lia).
  split; [exact Hsecs|]. split; [exact Hsame | exact (Hexact Hsecs)].
Defined.

(** The publisher the sample relay is created with; and a flush interval of
    2^55 seconds, which wraps around to 0 nanoseconds. *)
Example newEventVerbatimRelay_samples :
  (pub_options <$> vr_publisher (sampleRelay true 0))
    = Some [OptionCapacity 1000;
            OptionEndpointURI "https://events.example.com/bulk";
            OptionClient;
            OptionFlushInterval 5000000000] ∧
  (pub_options <$> vr_publisher (newEventVerbatimRelay "sdk-A"
      {| EventsUri := "https://events.example.com";
         SendEvents := true;
         FlushIntervalSecs := 2 ^ 55;
         SamplingInterval := 0;
         Capacity := 1000;
         InlineUsers := false |} "/bulk"))
    = Some [OptionCapacity 1000;
            OptionEndpointURI "https://events.example.com/bulk";
            OptionClient;
            OptionFlushInterval 0].
Proof. split; reflexivity. Qed.

Lemma nothing_published_when_not_sending_witness :
  SendEvents (vr_config (theVerbatimRelay (w_dispatcher sampleWorldNotSending))) = false ∧
  vr_raw (theVerbatimRelay (w_dispatcher (serveAll sampleWorldNotSending sampleRequests)))
    = [] ∧
  w_rGen (serveAll sampleWorldNotSending sampleRequests) = 1.
Proof.
  split; [reflexivity|].
  destruct (nothing_published_when_not_sending sampleWorldNotSending sampleRequests eq_refl)
    as [H1 H2].
  split; [by rewrite H1 | exact H2].
Defined.

Lemma enqueue_sampling_interval_one_witness :
  (∀ g n, 0 < n -> 0 <= fst (Int31n (g : Z) n) < n) ∧
  vr_raw (snd (fst (enqueue (sampleRelay true 1) 42 ["{}"]))) = [["{}"]].
Proof.
  assert (Hrange : ∀ g n, 0 < n -> 0 <= fst (Int31n (g : Z) n) < n).
  { intros g n Hn. simpl. by apply Z.mod_pos_bound. }
  split; [exact Hrange|].
  destruct (enqueue_sampling_interval_one (sampleRelay true 1) 42 ["{}"] Hrange)
    as [_ H]; [reflexivity | reflexivity | by eexists |].
  exact H.
Defined.

Lemma payloadVersion_decimal_witness :
  Header_Get (req_Header (sampleRequest (Some "12") sampleBody None)) EventSchemaHeader
    = digitsString [1; 2] ∧
  payloadVersionOf (sampleRequest (Some "12") sampleBody None) = 12 ∧
  payloadVersionOf (sampleRequest (Some "000") sampleBody None) = 1.
Proof.
  split; [reflexivity|].
  destruct (payloadVersion_decimal (sampleRequest (Some "12") sampleBody None) [1; 2])
    as [H12 _]; [by left | reflexivity | repeat constructor; done | simpl; lia |].
  destruct (payloadVersion_decimal (sampleRequest (Some "000") sampleBody None) [0; 0; 0])
    as [H0 _]; [by left | reflexivity | repeat constructor; done | simpl; lia |].
  split; [exact H12 | exact H0].
Defined.

End events_more_samples.
